(** * SleepDriver: the drowsiness decision engine of [sleep_detector.py]

    A shallow embedding of the two parts of [sleep_detector.py] that decide
    anything: the landmark based eye aspect ratio [calculate_ear], and the
    per-frame bookkeeping of [main] ([COUNTER], [ALARM_ON], [ear_history],
    the status text, the alarm actions and the 'r' key).

    Numbers.  Python floats are embedded as exact rationals ([Q]): every
    comparison and every arithmetic operation of the source is kept, with
    its rounding idealised away.  Equality of results is therefore stated
    with [==] ([Qeq]) wherever a value is computed, and with [=] where the
    source returns a literal.  [COUNTER] and [args.frames] are Python
    integers and live in [Z].

    What is proved of the state machine depends on the smoothed ratio only
    through the two comparisons the source makes with it, never on its
    numeric value, and so holds whatever the rounding.  Where a numeric
    value itself is at stake, [calculate_ear] is embedded a second time,
    in IEEE double precision ([EarDouble]), and the value is computed
    there. *)

From Stdlib Require Import ZArith QArith Qabs Qminmax List Bool Lia.
From Stdlib Require Import Lqa.
From Stdlib Require PrimFloat.
Import ListNotations.

Open Scope Q_scope.

(** ** Python operations that can raise *)

Module Py.

Inductive exn : Type :=
| ValueError          (* max() / min() of an empty sequence *)
| ZeroDivisionError.  (* float division by zero *)

Inductive result (A : Type) : Type :=
| Ret (a : A)
| Raise (e : exn).
Arguments Ret {A} a.
Arguments Raise {A} e.

Definition bind {A B : Type} (m : result A) (k : A -> result B) : result B :=
  match m with
  | Ret a => k a
  | Raise e => Raise e
  end.

Notation "x <- m ;; k" := (bind m (fun x => k))
  (at level 61, m at next level, right associativity).

Definition Qltb (a b : Q) : bool := negb (Qle_bool b a).

(** [max(xs)]: the first element is the candidate, a later one replaces
    it only when strictly greater. *)
Definition max_step (m item : Q) : Q := if Qltb m item then item else m.

Definition max (xs : list Q) : result Q :=
  match xs with
  | [] => Raise ValueError
  | v :: rest => Ret (fold_left max_step rest v)
  end.

(** [min(xs)]: dually, replaced only when strictly smaller. *)
Definition min_step (m item : Q) : Q := if Qltb item m then item else m.

Definition min (xs : list Q) : result Q :=
  match xs with
  | [] => Raise ValueError
  | v :: rest => Ret (fold_left min_step rest v)
  end.

(** [sum(xs)], accumulated from the left, starting at 0. *)
Definition sum (xs : list Q) : Q := fold_left Qplus xs 0.

(** [a / b] with the divisor checked: Python's float division raises
    [ZeroDivisionError] on a zero divisor.  (A numpy scalar as numerator
    would warn and return inf or nan there; the embedding takes the
    stricter behaviour.) *)
Definition div (a b : Q) : result Q :=
  if Qeq_bool b 0 then Raise ZeroDivisionError else Ret (a / b).

(** [np.mean(xs)]: sum over count.  It is only ever applied to the two
    slices of eight values (see [calculate_ear]); numpy raises nothing. *)
Definition mean (xs : list Q) : Q := sum xs / inject_Z (Z.of_nat (length xs)).

(** Vocabulary for extrema of lists of rationals. *)

(** [m] is, up to [==], one of the values of [xs]. *)
Definition member (m : Q) (xs : list Q) : Prop :=
  exists v, In v xs /\ v == m.

Definition upper_bound (m : Q) (xs : list Q) : Prop :=
  forall v, In v xs -> v <= m.

Definition lower_bound (m : Q) (xs : list Q) : Prop :=
  forall v, In v xs -> m <= v.

End Py.

Import Py.

(** ** The eye aspect ratio *)

Module Ear.

(** A MediaPipe landmark: [landmark.x], [landmark.y], [landmark.z]. *)
Record landmark : Type := Landmark { x : Q; y : Q; z : Q }.

(** [calculate_ear(eye_landmarks)]. *)
Definition calculate_ear (eye_landmarks : list landmark) : result Q :=
  if negb (Nat.eqb (length eye_landmarks) 16) then Ret 0
  else
    let upper_landmarks := firstn 8 eye_landmarks in
    let lower_landmarks := skipn 8 eye_landmarks in
    let upper_y := mean (map y upper_landmarks) in
    let lower_y := mean (map y lower_landmarks) in
    mx <- max (map x eye_landmarks) ;;
    mn <- min (map x eye_landmarks) ;;
    let eye_width := Qabs (mx - mn) in
    let eye_height := Qabs (upper_y - lower_y) in
    if Qltb 0 eye_width then div eye_height eye_width
    else Ret 0.

(** The synthetic eye of the specification: eight upper landmarks at
    y = 0.4, eight lower ones at y = 0.5, x running over [0.0, 0.2]. *)
Definition synthetic_eye : list landmark :=
  [ Landmark 0.0 0.4 0; Landmark 0.025 0.4 0; Landmark 0.05 0.4 0;
    Landmark 0.075 0.4 0; Landmark 0.1 0.4 0; Landmark 0.125 0.4 0;
    Landmark 0.15 0.4 0; Landmark 0.2 0.4 0;
    Landmark 0.2 0.5 0; Landmark 0.175 0.5 0; Landmark 0.15 0.5 0;
    Landmark 0.1 0.5 0; Landmark 0.075 0.5 0; Landmark 0.05 0.5 0;
    Landmark 0.025 0.5 0; Landmark 0.0 0.5 0 ].

(** *** The estimator in the words of the specification *)

Definition spec_max (xs : list Q) : Q := fold_right Qmax (hd 0 xs) (tl xs).
Definition spec_min (xs : list Q) : Q := fold_right Qmin (hd 0 xs) (tl xs).

(** The arithmetic mean of eight values. *)
Definition spec_mean8 (ys : list Q) : Q := fold_right Qplus 0 ys / 8.

Definition spec_eye_width (l : list landmark) : Q :=
  Qabs (spec_max (map x l) - spec_min (map x l)).

Definition spec_eye_height (l : list landmark) : Q :=
  Qabs (spec_mean8 (map y (firstn 8 l)) - spec_mean8 (map y (skipn 8 l))).

End Ear.

Import Ear.

(** ** The eye aspect ratio in double precision *)

Module EarDouble.

Import PrimFloat.
Local Open Scope float_scope.

(** Decimal literals stand for the nearest double, as in Python. *)
#[local] Set Warnings "-inexact-float".

(** A landmark with its coordinates as doubles. *)
Record landmark : Type := Landmark { x : float; y : float; z : float }.

(** [max] and [min] of Python on doubles: the candidate is replaced when
    [item > candidate], respectively [item < candidate]. *)
Definition max_step (m item : float) : float := if ltb m item then item else m.
Definition min_step (m item : float) : float := if ltb item m then item else m.

Definition max (xs : list float) : result float :=
  match xs with
  | [] => Raise ValueError
  | v :: rest => Ret (fold_left max_step rest v)
  end.

Definition min (xs : list float) : result float :=
  match xs with
  | [] => Raise ValueError
  | v :: rest => Ret (fold_left min_step rest v)
  end.

(** [np.mean] of eight doubles.  numpy reduces a block of eight with eight
    accumulators, adds them pairwise, and divides by the count. *)
Definition mean8 (a0 a1 a2 a3 a4 a5 a6 a7 : float) : float :=
  (((a0 + a1) + (a2 + a3)) + ((a4 + a5) + (a6 + a7))) / 8.

(** [calculate_ear(eye_landmarks)] on doubles.  The pattern is the test
    [len(eye_landmarks) != 16] together with the two slices [[:8]] and
    [[8:]]; the ratio is a numpy double divided by a Python double, which
    does not raise. *)
Definition calculate_ear (eye_landmarks : list landmark) : result float :=
  match eye_landmarks with
  | [u0; u1; u2; u3; u4; u5; u6; u7; l0; l1; l2; l3; l4; l5; l6; l7] =>
      let upper_y :=
        mean8 (y u0) (y u1) (y u2) (y u3) (y u4) (y u5) (y u6) (y u7) in
      let lower_y :=
        mean8 (y l0) (y l1) (y l2) (y l3) (y l4) (y l5) (y l6) (y l7) in
      mx <- max (map x eye_landmarks) ;;
      mn <- min (map x eye_landmarks) ;;
      let eye_width := abs (mx - mn) in
      let eye_height := abs (upper_y - lower_y) in
      if ltb 0 eye_width then Ret (eye_height / eye_width)
      else Ret 0
  | _ => Ret 0
  end.

(** The eye width and the eye height named on their own: the greatest x
    minus the least x, and the mean y of the first eight landmarks minus
    the mean y of the last eight, both in absolute value. *)
Definition greatest (xs : list float) : float :=
  fold_left max_step (tl xs) (hd 0 xs).

Definition least (xs : list float) : float :=
  fold_left min_step (tl xs) (hd 0 xs).

Definition eye_width (l : list landmark) : float :=
  abs (greatest (map x l) - least (map x l)).

Definition mean_y (l : list landmark) : float :=
  let d := Landmark 0 0 0 in
  mean8 (y (nth 0 l d)) (y (nth 1 l d)) (y (nth 2 l d)) (y (nth 3 l d))
        (y (nth 4 l d)) (y (nth 5 l d)) (y (nth 6 l d)) (y (nth 7 l d)).

Definition eye_height (l : list landmark) : float :=
  abs (mean_y (firstn 8 l) - mean_y (skipn 8 l)).

(** The synthetic eye of the specification, in doubles. *)
Definition synthetic_eye : list landmark :=
  [ Landmark 0.0 0.4 0; Landmark 0.025 0.4 0; Landmark 0.05 0.4 0;
    Landmark 0.075 0.4 0; Landmark 0.1 0.4 0; Landmark 0.125 0.4 0;
    Landmark 0.15 0.4 0; Landmark 0.2 0.4 0;
    Landmark 0.2 0.5 0; Landmark 0.175 0.5 0; Landmark 0.15 0.5 0;
    Landmark 0.1 0.5 0; Landmark 0.075 0.5 0; Landmark 0.05 0.5 0;
    Landmark 0.025 0.5 0; Landmark 0.0 0.5 0 ].


End EarDouble.

(** ** The per-frame state machine of [main] *)

Module Detector.

(** The command line: [args.ear], [args.frames], [args.log],
    [args.silent]. *)
Record args : Type := Args {
  args_ear : Q;
  args_frames : Z;
  args_log : bool;
  args_silent : bool
}.

(** [config.EYE_AR_THRESHOLD] and [config.EYE_AR_CONSEC_FRAMES], no
    logging, sound on. *)
Definition reference_args : args := Args 0.22 25 false false.

(** The literal [0.02] of the opening branch and the literal [5] of the
    sliding window. *)
Definition margin : Q := 0.02.
Definition window_capacity : nat := 5.

(** The three variables that survive from one frame to the next. *)
Record state : Type := State {
  COUNTER : Z;
  ALARM_ON : bool;
  ear_history : list Q
}.

(** Their values before the loop starts. *)
Definition initial : state := State 0 false [].

(** ["Status: Awake"] and ["Status: DROWSY!"]. *)
Inductive status : Type := Awake | Drowsy.

(** A change of [ALARM_ON]: [TurnedOn] is the assignment
    [ALARM_ON = True] under [if not ALARM_ON], [TurnedOff] the assignment
    [ALARM_ON = False] reached while the flag is set. *)
Inductive transition : Type := TurnedOn | TurnedOff.

(** The calls made when the alarm is switched on. *)
Inductive action : Type := PlayAlarm | LogDrowsinessEvent.

Record output : Type := Output {
  status_text : status;
  event : option transition;
  actions : list action
}.

(** [play_alarm] unless [args.silent], then [log_drowsiness_event] if
    [args.log]. *)
Definition alarm_actions (a : args) : list action :=
  (if negb (args_silent a) then [PlayAlarm] else []) ++
  (if args_log a then [LogDrowsinessEvent] else []).

(** [ear_history.append(ear)], then [ear_history.pop(0)] when more than
    five values are held. *)
Definition push_history (h : list Q) (ear : Q) : list Q :=
  let h1 := h ++ [ear] in
  if (window_capacity <? length h1)%nat then tl h1 else h1.

(** [sum(ear_history) / len(ear_history)].  The divisor is the length of
    a list that has just been appended to (lemma
    [push_history_nonempty]), so the division cannot fail. *)
Definition smoothed_ear (h : list Q) : Q :=
  Py.sum h / inject_Z (Z.of_nat (length h)).

(** One pass through the loop body, from the test on
    [results.multi_face_landmarks] to the status text.  [ear] is the
    average of the two eye ratios, [face_detected] the truth value of
    [results.multi_face_landmarks]; [ear] is not looked at when no face
    was found. *)
Definition update (a : args) (st : state) (ear : Q) (face_detected : bool)
  : state * output :=
  if face_detected then
    let h := push_history (ear_history st) ear in
    let smoothed := smoothed_ear h in
    if Qltb smoothed (args_ear a) then
      let c := (COUNTER st + 1)%Z in
      if (args_frames a <=? c)%Z then
        if negb (ALARM_ON st) then
          (State c true h, Output Drowsy (Some TurnedOn) (alarm_actions a))
        else
          (State c (ALARM_ON st) h, Output Drowsy None [])
      else
        (State c (ALARM_ON st) h, Output Awake None [])
    else if Qltb (args_ear a + margin) smoothed then
      let c := Z.max 0 (COUNTER st - 1) in
      if (c =? 0)%Z then
        (State c false h,
         Output Awake (if ALARM_ON st then Some TurnedOff else None) [])
      else
        (State c (ALARM_ON st) h, Output Awake None [])
    else
      (State (COUNTER st) (ALARM_ON st) h, Output Awake None [])
  else
    (State (Z.max 0 (COUNTER st - 1)) (ALARM_ON st) (ear_history st),
     Output Awake None []).

(** The 'r' key: [COUNTER = 0; ear_history = []]. *)
Definition reset (st : state) : state :=
  State 0 (ALARM_ON st) [].

(** What an observer of [ALARM_ON] sees between two states. *)
Definition observed_transition (before after : state) : option transition :=
  match ALARM_ON before, ALARM_ON after with
  | false, true => Some TurnedOn
  | true, false => Some TurnedOff
  | _, _ => None
  end.

(** A frame as the state machine receives it. *)
Record frame : Type := Frame { combined_ear : Q; face_detected : bool }.

(** The keys the loop reacts to. *)
Inductive key : Type := KeyQ | KeyD | KeyR | NoKey.

(** The key handling at the end of the loop body ('q' leaves the loop,
    see [main_loop]; 'd' only toggles the debug display). *)
Definition handle_key (k : key) (st : state) : state :=
  match k with
  | KeyR => reset st
  | _ => st
  end.

(** The frames of a run without key presses: the final state and the
    output of every frame, in order. *)
Fixpoint run (a : args) (st : state) (fs : list frame)
  : state * list output :=
  match fs with
  | [] => (st, [])
  | f :: rest =>
      let '(st1, o) := update a st (combined_ear f) (face_detected f) in
      let '(st2, os) := run a st1 rest in
      (st2, o :: os)
  end.

(** The [while True] loop over the frames that were grabbed and the key
    read after each; 'q' ends it. *)
Fixpoint main_loop (a : args) (st : state) (inputs : list (frame * key))
  : state * list output :=
  match inputs with
  | [] => (st, [])
  | (f, k) :: rest =>
      let '(st1, o) := update a st (combined_ear f) (face_detected f) in
      match k with
      | KeyQ => (st1, [o])
      | _ =>
          let '(st2, os) := main_loop a (handle_key k st1) rest in
          (st2, o :: os)
      end
  end.

(** The states the loop can be in: the initial one, and whatever an
    update or a reset makes of a reachable one. *)
Inductive reachable (a : args) : state -> Prop :=
| reachable_initial : reachable a initial
| reachable_update st ear fd :
    reachable a st -> reachable a (fst (update a st ear fd))
| reachable_reset st :
    reachable a st -> reachable a (reset st).

(** How the specification speaks of a frame: coded as closed (face found,
    smoothed ratio below the threshold), as opening (face found, smoothed
    ratio above threshold plus margin), as neither, or without a face. *)
Inductive coding : Type := Closed | Opening | Neither | NoFace.

Definition frame_coding (a : args) (st : state) (ear : Q)
  (face_detected : bool) : coding :=
  if face_detected then
    let smoothed := smoothed_ear (push_history (ear_history st) ear) in
    if Qltb smoothed (args_ear a) then Closed
    else if Qltb (args_ear a + margin) smoothed then Opening
    else Neither
  else NoFace.

(** The states after each frame of a run, in order. *)
Fixpoint states (a : args) (st : state) (fs : list frame) : list state :=
  match fs with
  | [] => []
  | f :: rest =>
      let st1 := fst (update a st (combined_ear f) (face_detected f)) in
      st1 :: states a st1 rest
  end.

(** [n] frames with a face and the same ratio. *)
Definition steady (n : nat) (ear : Q) : list frame :=
  repeat (Frame ear true) n.

(** The state after 25 frames of ratio 0.10 under the reference
    configuration: the alarm has just gone off. *)
Definition drowsy_state : state :=
  fst (run reference_args initial (steady 25 0.10)).

(** A configuration that needs a single closed frame, and a short run
    with two drowsiness episodes under it. *)
Definition quick_args : args := Args 0.22 1 false false.

Definition two_episodes : list frame :=
  [ Frame 0.1 true; Frame 0.9 true; Frame 0.0 true; Frame 0.0 true;
    Frame 0.0 true ].

(** The state after the 30 closed frames of the end-to-end scenario. *)
Definition scenario_state : state :=
  fst (run reference_args initial (steady 30 0.10)).

(** No two [TurnedOn] in a row: in a list of events, every [TurnedOn] is
    followed by a [TurnedOff] before the next [TurnedOn]. *)
Fixpoint latched (armed : bool) (evs : list (option transition)) : bool :=
  match evs with
  | [] => true
  | None :: rest => latched armed rest
  | Some TurnedOn :: rest => if armed then false else latched true rest
  | Some TurnedOff :: rest => latched false rest
  end.

End Detector.

Import Detector.

(** ** From the face mesh to the state machine *)

Module Mesh.

(** What can stop one pass of the loop body: an index outside the landmark
    list, or an exception raised inside [calculate_ear]. *)
Inductive failure : Type :=
| IndexError
| Raised (e : exn).

Inductive outcome (A : Type) : Type :=
| Done (v : A)
| Failed (f : failure).
Arguments Done {A} v.
Arguments Failed {A} f.

Definition and_then {A B : Type} (m : outcome A) (k : A -> outcome B)
  : outcome B :=
  match m with
  | Done v => k v
  | Failed f => Failed f
  end.

Definition of_result {A : Type} (r : result A) : outcome A :=
  match r with
  | Ret v => Done v
  | Raise e => Failed (Raised e)
  end.

(** The index tables of the source. *)
Definition LEFT_EYE_INDICES : list nat :=
  [ 362; 382; 381; 380; 374; 373; 390; 249;
    263; 466; 388; 387; 386; 385; 384; 398 ]%nat.

Definition RIGHT_EYE_INDICES : list nat :=
  [ 33; 7; 163; 144; 145; 153; 154; 155;
    133; 173; 157; 158; 159; 160; 161; 246 ]%nat.

(** [[face_landmarks.landmark[idx] for idx in eye_indices]]: the
    landmarks are looked up in the order of the indices, and the first
    index that is out of range raises. *)
Fixpoint extract_eye_landmarks (face_landmarks : list landmark)
  (eye_indices : list nat) : outcome (list landmark) :=
  match eye_indices with
  | [] => Done []
  | idx :: rest =>
      match nth_error face_landmarks idx with
      | None => Failed IndexError
      | Some p =>
          and_then (extract_eye_landmarks face_landmarks rest)
                   (fun ps => Done (p :: ps))
      end
  end.

(** Lines 269 to 279: both eyes are extracted, then both ratios are
    computed, then averaged. *)
Definition frame_ear (face_landmarks : list landmark) : outcome Q :=
  and_then (extract_eye_landmarks face_landmarks LEFT_EYE_INDICES)
    (fun left_eye_landmarks =>
  and_then (extract_eye_landmarks face_landmarks RIGHT_EYE_INDICES)
    (fun right_eye_landmarks =>
  and_then (of_result (calculate_ear left_eye_landmarks)) (fun left_ear =>
  and_then (of_result (calculate_ear right_eye_landmarks)) (fun right_ear =>
  Done ((left_ear + right_ear) / 2))))).

End Mesh.

Import Mesh.

(** ** The helpers of [utils.py] *)

Module Utils.

(** An eye as a bounding box [(x, y, w, h)]. *)
Record box : Type := Box { box_x : Q; box_y : Q; box_w : Q; box_h : Q }.

(** [calculate_eye_aspect_ratio(eye1, eye2)].  The two-argument [max] and
    [min] of Python keep their first argument unless the second is
    strictly greater, respectively smaller: these are [max_step] and
    [min_step]. *)
Definition calculate_eye_aspect_ratio (eye1 eye2 : box) : result Q :=
  ratio1 <- div (box_h eye1) (max_step (box_w eye1) 1) ;;
  ratio2 <- div (box_h eye2) (max_step (box_w eye2) 1) ;;
  let area1 := box_w eye1 * box_h eye1 in
  let area2 := box_w eye2 * box_h eye2 in
  let avg_ratio := (ratio1 + ratio2) / 2 in
  let ear := 0.27 * avg_ratio in
  let size_factor := min_step 0.03 ((area1 + area2) / 20000) in
  let ear := ear + size_factor in
  Ret (min_step (max_step ear 0.15) 0.35).

(** What [calculate_eye_aspect_ratio] computes before its last line, and
    the clamp of its last line, named for the statements below. *)
Definition raw_ratio (eye1 eye2 : box) : Q :=
  0.27 * ((box_h eye1 / max_step (box_w eye1) 1
           + box_h eye2 / max_step (box_w eye2) 1) / 2)
  + min_step 0.03
      ((box_w eye1 * box_h eye1 + box_w eye2 * box_h eye2) / 20000).

Definition clamp (v : Q) : Q := min_step (max_step v 0.15) 0.35.

(** The centre of a box: [(x + w/2, y + h/2)]. *)
Definition eye_center (e : box) : Q * Q :=
  (box_x e + box_w e / 2, box_y e + box_h e / 2).

(** The [for cx, cy in eye_centers] loop with its two early returns. *)
Fixpoint scan_centers (frame_height frame_width : Q)
  (eye_centers : list (Q * Q)) : bool :=
  match eye_centers with
  | [] => false
  | (cx, cy) :: rest =>
      if Qltb cx (frame_width * 0.2) || Qltb (frame_width * 0.8) cx
      then true
      else if Qltb cy (frame_height * 0.15) || Qltb (frame_height * 0.6) cy
      then true
      else scan_centers frame_height frame_width rest
  end.

(** [is_looking_away(eyes, frame_height, frame_width)]. *)
Definition is_looking_away (eyes : list box) (frame_height frame_width : Q)
  : bool :=
  if (length eyes <? 2)%nat then false
  else scan_centers frame_height frame_width
         (map eye_center (firstn 2 eyes)).

(** A centre inside the band the source accepts: the middle 60% of the
    width, and from 15% to 60% of the height. *)
Definition centred (frame_height frame_width : Q) (e : box) : Prop :=
  frame_width * 0.2 <= fst (eye_center e) <= frame_width * 0.8 /\
  frame_height * 0.15 <= snd (eye_center e) <= frame_height * 0.6.

(** [np.linspace(start, stop, num)]: [num] evenly spaced values from
    [start] to [stop], both included. *)
Definition linspace (start stop : Q) (num : nat) : list Q :=
  map (fun i => start + inject_Z (Z.of_nat i) *
                        ((stop - start) / inject_Z (Z.of_nat (num - 1))))
      (seq 0 num).

(** The end of [detect_eye_closure], from the histogram on (lines 222 to
    230): [hist] is what [cv2.calcHist] returned, one count per intensity.
    It is normalised by its sum, multiplied bin by bin with the weights
    and summed. *)
Definition closure_score (hist : list Q) : Q :=
  let total := Py.sum hist in
  let hist := map (fun c => c / total) hist in
  let weights := linspace 1.0 0.1 256 in
  Py.sum (map (fun hw => fst hw * snd hw) (combine hist weights)).

End Utils.

Import Utils.

(** ** Vocabulary for whole runs *)

(** The last five values of a list (all of it when it is shorter). *)
Definition last_five (l : list Q) : list Q := skipn (length l - 5) l.

(** The ratios of the frames in which a face was found, in order. *)
Definition ratios_seen (fs : list frame) : list Q :=
  map combined_ear (filter face_detected fs).

(** Every frame of a run is coded [c], each one in the state the run has
    reached when the frame arrives. *)
Fixpoint all_coded (a : args) (c : coding) (st : state) (fs : list frame)
  : Prop :=
  match fs with
  | [] => True
  | f :: rest =>
      frame_coding a st (combined_ear f) (face_detected f) = c /\
      all_coded a c (fst (update a st (combined_ear f) (face_detected f)))
        rest
  end.

(** The changes of [ALARM_ON] along a sequence of states that starts
    from [st]. *)
Fixpoint transitions (st : state) (sts : list state)
  : list (option transition) :=
  match sts with
  | [] => []
  | s :: rest => observed_transition st s :: transitions s rest
  end.

(** Frames without a face. *)
Definition faceless (fs : list frame) : Prop :=
  Forall (fun f => face_detected f = false) fs.

(** How often an alarm call was made over the outputs of a run, and how
    many of the outputs carry [TurnedOn]. *)
Definition is_call (c d : action) : bool :=
  match c, d with
  | PlayAlarm, PlayAlarm => true
  | LogDrowsinessEvent, LogDrowsinessEvent => true
  | _, _ => false
  end.

Definition calls (c : action) (outs : list output) : nat :=
  length (filter (is_call c) (concat (map actions outs))).

Definition is_turned_on (o : output) : bool :=
  match event o with
  | Some TurnedOn => true
  | _ => false
  end.

Definition turned_on_count (outs : list output) : nat :=
  length (filter is_turned_on outs).

(** Two configurations with the same threshold and the same number of
    required frames. *)
Definition same_detection (a b : args) : Prop :=
  args_ear a = args_ear b /\ args_frames a = args_frames b.

(** * Properties *)

(** ** Comparisons, maxima and means *)

Lemma Qltb_lt a b : Qltb a b = true <-> a < b.
Proof.
  unfold Qltb. rewrite negb_true_iff.
  split; intro H.
  - apply Qnot_le_lt. intro Hle. apply Qle_bool_iff in Hle. congruence.
  - destruct (Qle_bool b a) eqn:E; [|reflexivity].
    apply Qle_bool_iff in E. exfalso. exact (Qlt_not_le _ _ H E).
Qed.

Lemma Qltb_ge a b : Qltb a b = false <-> b <= a.
Proof.
  unfold Qltb. rewrite negb_false_iff. apply Qle_bool_iff.
Qed.

Lemma greatest_unique m1 m2 xs :
  member m1 xs -> upper_bound m1 xs ->
  member m2 xs -> upper_bound m2 xs -> m1 == m2.
Proof.
  intros [v1 [I1 E1]] U1 [v2 [I2 E2]] U2.
  apply Qle_antisym.
  - rewrite <- E1. now apply U2.
  - rewrite <- E2. now apply U1.
Qed.

Lemma least_unique m1 m2 xs :
  member m1 xs -> lower_bound m1 xs ->
  member m2 xs -> lower_bound m2 xs -> m1 == m2.
Proof.
  intros [v1 [I1 E1]] L1 [v2 [I2 E2]] L2.
  apply Qle_antisym.
  - rewrite <- E2. now apply L1.
  - rewrite <- E1. now apply L2.
Qed.

Lemma fold_up_greatest rest : forall v,
  member (fold_left max_step rest v) (v :: rest) /\
  upper_bound (fold_left max_step rest v) (v :: rest).
Proof.
  induction rest as [|a rest IH]; intro v; simpl.
  - split.
    + exists v. split; [now left | reflexivity].
    + intros w [<- | []]. apply Qle_refl.
  - destruct (IH (max_step v a)) as [[w [Hin Hw]] Hub].
    assert (Hv : v <= max_step v a /\ a <= max_step v a).
    { unfold max_step. destruct (Qltb v a) eqn:E.
      - apply Qltb_lt in E. split; [now apply Qlt_le_weak | apply Qle_refl].
      - apply Qltb_ge in E. split; [apply Qle_refl | exact E]. }
    split.
    + exists w. split; [|exact Hw].
      destruct Hin as [Hin | Hin]; [|now right; right].
      subst w. unfold max_step.
      destruct (Qltb v a); [right; now left | now left].
    + intros u [<- | [<- | Hu]].
      * eapply Qle_trans; [apply Hv|]. apply Hub. now left.
      * eapply Qle_trans; [apply Hv|]. apply Hub. now left.
      * apply Hub. now right.
Qed.

Lemma fold_down_least rest : forall v,
  member (fold_left min_step rest v) (v :: rest) /\
  lower_bound (fold_left min_step rest v) (v :: rest).
Proof.
  induction rest as [|a rest IH]; intro v; simpl.
  - split.
    + exists v. split; [now left | reflexivity].
    + intros w [<- | []]. apply Qle_refl.
  - destruct (IH (min_step v a)) as [[w [Hin Hw]] Hlb].
    assert (Hv : min_step v a <= v /\ min_step v a <= a).
    { unfold min_step. destruct (Qltb a v) eqn:E.
      - apply Qltb_lt in E. split; [now apply Qlt_le_weak | apply Qle_refl].
      - apply Qltb_ge in E. split; [apply Qle_refl | exact E]. }
    split.
    + exists w. split; [|exact Hw].
      destruct Hin as [Hin | Hin]; [|now right; right].
      subst w. unfold min_step.
      destruct (Qltb a v); [right; now left | now left].
    + intros u [<- | [<- | Hu]].
      * eapply Qle_trans; [|apply Hv]. apply Hlb. now left.
      * eapply Qle_trans; [|apply Hv]. apply Hlb. now left.
      * apply Hlb. now right.
Qed.

Lemma fold_Qmax_greatest rest v :
  member (fold_right Qmax v rest) (v :: rest) /\
  upper_bound (fold_right Qmax v rest) (v :: rest).
Proof.
  induction rest as [|a rest [[w [Hin Hw]] Hub]]; simpl.
  - split.
    + exists v. split; [now left | reflexivity].
    + intros w [<- | []]. apply Qle_refl.
  - split.
    + destruct (Q.max_dec a (fold_right Qmax v rest)) as [E | E].
      * exists a. split; [right; now left | now symmetry].
      * exists w. split.
        -- destruct Hin as [Hin | Hin]; [now left | now right; right].
        -- now rewrite E.
    + intros u [<- | [<- | Hu]].
      * eapply Qle_trans; [|apply Q.le_max_r]. apply Hub. now left.
      * apply Q.le_max_l.
      * eapply Qle_trans; [|apply Q.le_max_r]. apply Hub. now right.
Qed.

Lemma fold_Qmin_least rest v :
  member (fold_right Qmin v rest) (v :: rest) /\
  lower_bound (fold_right Qmin v rest) (v :: rest).
Proof.
  induction rest as [|a rest [[w [Hin Hw]] Hlb]]; simpl.
  - split.
    + exists v. split; [now left | reflexivity].
    + intros w [<- | []]. apply Qle_refl.
  - split.
    + destruct (Q.min_dec a (fold_right Qmin v rest)) as [E | E].
      * exists a. split; [right; now left | now symmetry].
      * exists w. split.
        -- destruct Hin as [Hin | Hin]; [now left | now right; right].
        -- now rewrite E.
    + intros u [<- | [<- | Hu]].
      * eapply Qle_trans; [apply Q.le_min_r|]. apply Hlb. now left.
      * apply Q.le_min_l.
      * eapply Qle_trans; [apply Q.le_min_r|]. apply Hlb. now right.
Qed.

(** Python's [max] and [min] of a non-empty list return the greatest and
    the least value, as the specification names them. *)
Lemma max_is_spec_max v rest :
  exists m, Py.max (v :: rest) = Ret m /\ m == spec_max (v :: rest).
Proof.
  eexists. split; [reflexivity|].
  unfold spec_max. simpl hd. simpl tl.
  destruct (fold_up_greatest rest v) as [M1 U1].
  destruct (fold_Qmax_greatest rest v) as [M2 U2].
  exact (greatest_unique _ _ _ M1 U1 M2 U2).
Qed.

Lemma min_is_spec_min v rest :
  exists m, Py.min (v :: rest) = Ret m /\ m == spec_min (v :: rest).
Proof.
  eexists. split; [reflexivity|].
  unfold spec_min. simpl hd. simpl tl.
  destruct (fold_down_least rest v) as [M1 L1].
  destruct (fold_Qmin_least rest v) as [M2 L2].
  exact (least_unique _ _ _ M1 L1 M2 L2).
Qed.


(** ** Means and sums *)

Lemma sum_from acc xs :
  fold_left Qplus xs acc == acc + Py.sum xs.
Proof.
  unfold Py.sum. revert acc.
  induction xs as [|v xs IH]; intro acc; simpl.
  - ring.
  - rewrite IH. rewrite (IH (0 + v)). ring.
Qed.

Lemma sum_cons v xs : Py.sum (v :: xs) == v + Py.sum xs.
Proof. unfold Py.sum at 1. simpl. rewrite sum_from. ring. Qed.

Lemma sum_constant c xs :
  Forall (fun v => v == c) xs ->
  Py.sum xs == c * inject_Z (Z.of_nat (length xs)).
Proof.
  induction 1 as [|v xs Hv _ IH].
  - unfold Py.sum. simpl. ring.
  - assert (Hv' : v == c) by exact Hv.
    rewrite sum_cons, IH.
    change (length (v :: xs)) with (S (length xs)).
    rewrite Nat2Z.inj_succ. unfold Z.succ. rewrite inject_Z_plus, Hv'. ring.
Qed.

Lemma sum_fold_right xs : Py.sum xs == fold_right Qplus 0 xs.
Proof.
  induction xs as [|v xs IH].
  - reflexivity.
  - rewrite sum_cons, IH. reflexivity.
Qed.

(** On eight values [np.mean] is the arithmetic mean. *)
Lemma mean_eight ys : length ys = 8%nat -> mean ys == spec_mean8 ys.
Proof.
  intro Hlen. unfold mean, spec_mean8.
  rewrite Hlen, sum_fold_right. reflexivity.
Qed.

Lemma spec_mean8_constant c ys :
  length ys = 8%nat -> Forall (fun v => v == c) ys -> spec_mean8 ys == c.
Proof.
  intros Hlen Hall. rewrite <- (mean_eight ys Hlen). unfold mean.
  rewrite (sum_constant c ys Hall), Hlen. field.
Qed.

(** ** The eye aspect ratio *)

Lemma div_positive a b : 0 < b -> div a b = Ret (a / b).
Proof.
  intro Hb. unfold div.
  destruct (Qeq_bool b 0) eqn:E; [|reflexivity].
  apply Qeq_bool_iff in E. rewrite E in Hb.
  exfalso. exact (Qlt_irrefl 0 Hb).
Qed.

(** With sixteen landmarks, [max] and [min] succeed and return the extrema
    of the x coordinates, and the two slices hold eight landmarks each;
    what is left of [calculate_ear] is the guarded division. *)
Lemma calculate_ear_sixteen l :
  length l = 16%nat ->
  exists w h, w == spec_eye_width l /\ h == spec_eye_height l /\
    calculate_ear l = if Qltb 0 w then div h w else Ret 0.
Proof.
  intro Hlen. unfold calculate_ear. rewrite Hlen. simpl negb. cbv iota.
  assert (Hup : mean (map y (firstn 8 l)) == spec_mean8 (map y (firstn 8 l))).
  { apply mean_eight. now rewrite length_map, length_firstn, Hlen. }
  assert (Hlow : mean (map y (skipn 8 l)) == spec_mean8 (map y (skipn 8 l))).
  { apply mean_eight. now rewrite length_map, length_skipn, Hlen. }
  destruct l as [|p l]; [discriminate|].
  change (map x (p :: l)) with (x p :: map x l).
  destruct (max_is_spec_max (x p) (map x l)) as [mx [Emx Hmx]].
  destruct (min_is_spec_min (x p) (map x l)) as [mn [Emn Hmn]].
  rewrite Emx, Emn. simpl bind.
  exists (Qabs (mx - mn)).
  exists (Qabs (mean (map y (firstn 8 (p :: l)))
                - mean (map y (skipn 8 (p :: l))))).
  split; [|split; [|reflexivity]].
  - unfold spec_eye_width.
    change (map x (p :: l)) with (x p :: map x l).
    now rewrite Hmx, Hmn.
  - unfold spec_eye_height. now rewrite Hup, Hlow.
Qed.

Lemma Qltb_proper a b c : b == c -> Qltb a b = Qltb a c.
Proof.
  intro E. destruct (Qltb a c) eqn:H.
  - apply Qltb_lt. apply Qltb_lt in H. now rewrite E.
  - apply Qltb_ge. apply Qltb_ge in H. now rewrite E.
Qed.

Lemma calculate_ear_open l :
  length l = 16%nat -> 0 < spec_eye_width l ->
  exists r, calculate_ear l = Ret r /\
            r == spec_eye_height l / spec_eye_width l.
Proof.
  intros Hlen Hw.
  destruct (calculate_ear_sixteen l Hlen) as [w [h [Ew [Eh Hcalc]]]].
  rewrite (Qltb_proper 0 _ _ Ew) in Hcalc.
  apply Qltb_lt in Hw as Hguard. rewrite Hguard in Hcalc.
  rewrite div_positive in Hcalc by (now rewrite Ew).
  eexists. split; [exact Hcalc|]. now rewrite Ew, Eh.
Qed.

Lemma calculate_ear_flat l :
  length l = 16%nat -> ~ 0 < spec_eye_width l -> calculate_ear l = Ret 0.
Proof.
  intros Hlen Hw.
  destruct (calculate_ear_sixteen l Hlen) as [w [h [Ew [_ Hcalc]]]].
  rewrite (Qltb_proper 0 _ _ Ew) in Hcalc.
  destruct (Qltb 0 (spec_eye_width l)) eqn:G; [|exact Hcalc].
  apply Qltb_lt in G. contradiction.
Qed.

Lemma same_x_no_width l x0 :
  l <> [] -> Forall (fun p => x p == x0) l -> spec_eye_width l == 0.
Proof.
  intros Hne Hall.
  destruct l as [|p l]; [congruence|].
  assert (Hxs : forall v, In v (map x (p :: l)) -> v == x0).
  { intros v Hv. apply in_map_iff in Hv as [q [<- Hq]].
    rewrite Forall_forall in Hall. exact (Hall q Hq). }
  unfold spec_eye_width, spec_max, spec_min.
  change (map x (p :: l)) with (x p :: map x l) in *. simpl hd. simpl tl.
  destruct (fold_Qmax_greatest (map x l) (x p)) as [[v1 [I1 E1]] _].
  destruct (fold_Qmin_least (map x l) (x p)) as [[v2 [I2 E2]] _].
  rewrite <- E1, <- E2, (Hxs v1 I1), (Hxs v2 I2).
  setoid_replace (x0 - x0) with 0 by ring. reflexivity.
Qed.

(** In exact arithmetic: for sixteen landmarks whose eye width (greatest
    x minus least x, in absolute value) is strictly positive,
    [calculate_ear] returns the absolute difference of the mean y of the
    first eight and the mean y of the last eight landmarks, divided by the
    eye width; for every eye with upper landmarks at y = 0.4, lower
    landmarks at y = 0.5 and x ranging over [0.0, 0.2], that quotient is
    0.5. *)
Lemma calculate_ear_exact_height_over_width :
  (forall l, length l = 16%nat -> 0 < spec_eye_width l ->
     exists r, calculate_ear l = Ret r /\
               r == spec_eye_height l / spec_eye_width l) /\
  (forall l, length l = 16%nat ->
     Forall (fun p => y p == 0.4) (firstn 8 l) ->
     Forall (fun p => y p == 0.5) (skipn 8 l) ->
     spec_min (map x l) == 0.0 -> spec_max (map x l) == 0.2 ->
     exists r, calculate_ear l = Ret r /\ r == 0.5).
Proof.
  split; [exact calculate_ear_open|].
  intros l Hlen Hup Hlow Hmin Hmax.
  assert (Hw : spec_eye_width l == 0.2).
  { unfold spec_eye_width. rewrite Hmin, Hmax. reflexivity. }
  assert (Hh : spec_eye_height l == 0.1).
  { unfold spec_eye_height.
    rewrite (spec_mean8_constant 0.4 (map y (firstn 8 l))).
    - rewrite (spec_mean8_constant 0.5 (map y (skipn 8 l))).
      + reflexivity.
      + now rewrite length_map, length_skipn, Hlen.
      + apply Forall_map. exact Hlow.
    - now rewrite length_map, length_firstn, Hlen.
    - apply Forall_map. exact Hup. }
  destruct (calculate_ear_open l Hlen) as [r [Hr Er]].
  - rewrite Hw. reflexivity.
  - exists r. split; [exact Hr|]. rewrite Er, Hw, Hh. reflexivity.
Qed.

Example calculate_ear_exact_on_synthetic_eye :
  (exists r,
     calculate_ear synthetic_eye = Ret r /\
     r == spec_eye_height synthetic_eye / spec_eye_width synthetic_eye) /\
  (exists r, calculate_ear synthetic_eye = Ret r /\ r == 0.5).
Proof.
  split.
  - apply (proj1 calculate_ear_exact_height_over_width synthetic_eye).
    + reflexivity.
    + reflexivity.
  - apply (proj2 calculate_ear_exact_height_over_width synthetic_eye).
    + reflexivity.
    + repeat constructor.
    + repeat constructor.
    + reflexivity.
    + reflexivity.
Defined.




(** C6. [calculate_ear] never raises: it always returns a value; that
    value is the literal 0.0 for every list whose length is not 16, for
    every 16-landmark set whose x coordinates are all the same, and more
    generally whenever the eye width is not strictly positive, so the
    division only happens with a positive divisor. *)
Theorem calculate_ear_never_raises :
  (forall l, exists r, calculate_ear l = Ret r) /\
  (forall l, length l <> 16%nat -> calculate_ear l = Ret 0) /\
  (forall l x0, length l = 16%nat -> Forall (fun p => x p == x0) l ->
     calculate_ear l = Ret 0) /\
  (forall l, length l = 16%nat -> ~ 0 < spec_eye_width l ->
     calculate_ear l = Ret 0).
Proof.
  assert (Hshort : forall l, length l <> 16%nat -> calculate_ear l = Ret 0).
  { intros l Hlen. unfold calculate_ear.
    apply Nat.eqb_neq in Hlen. now rewrite Hlen. }
  repeat split.
  - intro l. destruct (Nat.eq_dec (length l) 16) as [Hlen | Hlen].
    + destruct (Qlt_le_dec 0 (spec_eye_width l)) as [Hw | Hw].
      * destruct (calculate_ear_open l Hlen Hw) as [r [Hr _]]. now exists r.
      * exists 0. apply calculate_ear_flat; [exact Hlen|].
        intro H. exact (Qlt_not_le _ _ H Hw).
    + exists 0. now apply Hshort.
  - exact Hshort.
  - intros l x0 Hlen Hall. apply calculate_ear_flat; [exact Hlen|].
    rewrite (same_x_no_width l x0); [apply Qlt_irrefl | | exact Hall].
    intro E. subst l. discriminate.
  - exact calculate_ear_flat.
Qed.

Lemma calculate_ear_never_raises_witness :
  calculate_ear [] = Ret 0 /\
  calculate_ear (repeat (Landmark 0.3 0.4 0) 16) = Ret 0.
Proof.
  destruct calculate_ear_never_raises as [_ [Hshort [Hsame _]]].
  split.
  - apply Hshort. simpl. lia.
  - apply (Hsame _ 0.3).
    + reflexivity.
    + repeat constructor.
Defined.

(** ** The sliding window *)

Lemma push_history_nonempty h ear : push_history h ear <> [].
Proof.
  unfold push_history, window_capacity.
  destruct (5 <? length (h ++ [ear]))%nat eqn:E.
  - apply Nat.ltb_lt in E.
    destruct (h ++ [ear]) as [|v [|w t]]; simpl in *; try lia. discriminate.
  - destruct h; discriminate.
Qed.

Lemma push_history_bounded h ear :
  (length h <= 5)%nat -> (length (push_history h ear) <= 5)%nat.
Proof.
  intro Hlen. unfold push_history, window_capacity.
  destruct (5 <? length (h ++ [ear]))%nat eqn:E.
  - assert (L : length (h ++ [ear]) = S (length h))
      by (rewrite length_app; simpl; lia).
    destruct (h ++ [ear]) as [|v t]; simpl in *; lia.
  - apply Nat.ltb_ge in E. exact E.
Qed.

(** The window after a push is the last five values of the old window
    followed by the new value: the oldest one is the one that leaves. *)
Lemma push_history_fifo h ear :
  (length h <= 5)%nat ->
  push_history h ear =
    skipn (length (h ++ [ear]) - 5) (h ++ [ear]).
Proof.
  intro Hlen. unfold push_history, window_capacity.
  assert (L : length (h ++ [ear]) = S (length h))
    by (rewrite length_app; simpl; lia).
  destruct (5 <? length (h ++ [ear]))%nat eqn:E.
  - apply Nat.ltb_lt in E.
    replace (length (h ++ [ear]) - 5)%nat with 1%nat by lia.
    destruct (h ++ [ear]); reflexivity.
  - apply Nat.ltb_ge in E.
    replace (length (h ++ [ear]) - 5)%nat with 0%nat by lia. reflexivity.
Qed.

(** The divisor of [smoothed_ear] is never zero where [update] uses it. *)
Lemma smoothed_ear_divisor h ear :
  ~ inject_Z (Z.of_nat (length (push_history h ear))) == 0.
Proof.
  pose proof (push_history_nonempty h ear) as Hne.
  destruct (push_history h ear) as [|v t]; [congruence|].
  change 0 with (inject_Z 0). rewrite inject_Z_injective. simpl. lia.
Qed.

(** ** One update *)

(** Splits [update] along the tests of the source. *)
Ltac update_cases a st ear :=
  unfold update, frame_coding;
  destruct (Qltb (smoothed_ear (push_history (ear_history st) ear))
              (args_ear a)) eqn:Hclosed;
  [ destruct (args_frames a <=? COUNTER st + 1)%Z eqn:Hframes;
    [ destruct (ALARM_ON st) eqn:Halarm | ]
  | destruct (Qltb (args_ear a + margin)
                (smoothed_ear (push_history (ear_history st) ear))) eqn:Hopen;
    [ destruct (Z.max 0 (COUNTER st - 1) =? 0)%Z eqn:Hzero;
      [ destruct (ALARM_ON st) eqn:Halarm | ]
    | ] ];
  simpl.

Section OneUpdate.

Variables (a : args) (st : state) (ear : Q).

Lemma update_counter fd :
  COUNTER (fst (update a st ear fd)) =
    match frame_coding a st ear fd with
    | Closed => (COUNTER st + 1)%Z
    | Opening | NoFace => Z.max 0 (COUNTER st - 1)
    | Neither => COUNTER st
    end.
Proof.
  destruct fd; [|reflexivity].
  update_cases a st ear; reflexivity.
Qed.

Lemma update_history fd :
  ear_history (fst (update a st ear fd)) =
    if fd then push_history (ear_history st) ear else ear_history st.
Proof.
  destruct fd; [|reflexivity].
  update_cases a st ear; reflexivity.
Qed.

(** The event reported by [update] is the change of [ALARM_ON] it made. *)
Lemma update_event fd :
  event (snd (update a st ear fd)) =
    observed_transition st (fst (update a st ear fd)).
Proof.
  unfold observed_transition.
  destruct fd; [|simpl; now destruct (ALARM_ON st)].
  update_cases a st ear; try rewrite Halarm; try reflexivity;
    now destruct (ALARM_ON st).
Qed.

(** The alarm calls are made on [TurnedOn] frames and on no others. *)
Lemma update_actions fd :
  actions (snd (update a st ear fd)) =
    match event (snd (update a st ear fd)) with
    | Some TurnedOn => alarm_actions a
    | _ => []
    end.
Proof.
  destruct fd; [|reflexivity].
  update_cases a st ear; reflexivity.
Qed.

Lemma update_status fd :
  status_text (snd (update a st ear fd)) = Drowsy <->
  frame_coding a st ear fd = Closed /\ (args_frames a <= COUNTER st + 1)%Z.
Proof.
  destruct fd; [|simpl; split; [discriminate | intros [H _]; discriminate]].
  update_cases a st ear;
    try apply Z.leb_le in Hframes; try apply Z.leb_gt in Hframes;
    (split; [intro H | intros [H1 H2]]);
    try discriminate; try reflexivity; try lia;
    (split; [reflexivity | lia]).
Qed.

Lemma update_alarm_on fd :
  ALARM_ON (fst (update a st ear fd)) =
    match frame_coding a st ear fd with
    | Closed => ALARM_ON st || (args_frames a <=? COUNTER st + 1)%Z
    | Opening => ALARM_ON st && negb (Z.max 0 (COUNTER st - 1) =? 0)%Z
    | Neither | NoFace => ALARM_ON st
    end.
Proof.
  destruct fd; [|reflexivity].
  update_cases a st ear; try rewrite Halarm; try reflexivity;
    now destruct (ALARM_ON st).
Qed.

Lemma frame_coding_closed fd :
  frame_coding a st ear fd = Closed <->
  fd = true /\ smoothed_ear (push_history (ear_history st) ear) < args_ear a.
Proof.
  unfold frame_coding. destruct fd.
  - destruct (Qltb _ (args_ear a)) eqn:E.
    + apply Qltb_lt in E. tauto.
    + apply Qltb_ge in E. split.
      * destruct (Qltb (args_ear a + margin) _); discriminate.
      * intros [_ H]. exfalso. exact (Qlt_not_le _ _ H E).
  - split; [discriminate | intros [H _]; discriminate].
Qed.

Lemma frame_coding_opening fd :
  frame_coding a st ear fd = Opening <->
  fd = true /\
  args_ear a + margin < smoothed_ear (push_history (ear_history st) ear).
Proof.
  assert (Hm : 0 < margin) by reflexivity.
  unfold frame_coding. destruct fd.
  - destruct (Qltb _ (args_ear a)) eqn:E.
    + apply Qltb_lt in E. split; [discriminate|]. intros [_ H]. exfalso.
      apply (Qlt_irrefl (args_ear a)).
      apply Qlt_trans with (args_ear a + margin).
      * rewrite <- (Qplus_0_r (args_ear a)) at 1.
        apply Qplus_lt_r. exact Hm.
      * now apply Qlt_trans with (2 := E).
    + destruct (Qltb (args_ear a + margin) _) eqn:F.
      * apply Qltb_lt in F. tauto.
      * apply Qltb_ge in F. split; [discriminate|].
        intros [_ H]. exfalso. exact (Qlt_not_le _ _ H F).
  - split; [discriminate | intros [H _]; discriminate].
Qed.

Lemma frame_coding_neither :
  args_ear a <= smoothed_ear (push_history (ear_history st) ear) ->
  smoothed_ear (push_history (ear_history st) ear) <= args_ear a + margin ->
  frame_coding a st ear true = Neither.
Proof.
  intros H1 H2. unfold frame_coding.
  apply Qltb_ge in H1. apply Qltb_ge in H2. now rewrite H1, H2.
Qed.

End OneUpdate.

Lemma run_app a st fs gs :
  run a st (fs ++ gs) =
    let '(st1, os1) := run a st fs in
    let '(st2, os2) := run a st1 gs in
    (st2, os1 ++ os2).
Proof.
  revert st. induction fs as [|f fs IH]; intro st; simpl.
  - now destruct (run a st gs).
  - destruct (update a st (combined_ear f) (face_detected f)) as [st1 o].
    rewrite IH. destruct (run a st1 fs) as [st2 os].
    now destruct (run a st2 gs).
Qed.

Lemma run_reachable a fs : forall st,
  reachable a st -> reachable a (fst (run a st fs)).
Proof.
  induction fs as [|f fs IH]; intros st Hst; simpl; [exact Hst|].
  pose proof (reachable_update a st (combined_ear f) (face_detected f) Hst)
    as Hstep.
  destruct (update a st (combined_ear f) (face_detected f)) as [st1 o].
  specialize (IH st1 Hstep).
  now destruct (run a st1 fs).
Qed.

Lemma drowsy_state_reachable : reachable reference_args drowsy_state.
Proof. apply run_reachable. constructor. Qed.

(** Whatever the keys and frames, the loop stays within [reachable]. *)
Lemma main_loop_reachable a inputs : forall st,
  reachable a st -> reachable a (fst (main_loop a st inputs)).
Proof.
  induction inputs as [|[f k] inputs IH]; intros st Hst; simpl; [exact Hst|].
  pose proof (reachable_update a st (combined_ear f) (face_detected f) Hst)
    as Hstep.
  destruct (update a st (combined_ear f) (face_detected f)) as [st1 o].
  simpl in Hstep.
  assert (Hkey : reachable a (handle_key k st1))
    by (destruct k; simpl; try exact Hstep; now constructor).
  specialize (IH _ Hkey).
  destruct k; try exact Hstep;
    now destruct (main_loop a _ inputs).
Qed.

(** ** Reset *)

(** C1, as the code has it. The 'r' key empties the smoothing window and
    sets the counter to 0 whatever the state was; it leaves [ALARM_ON] as
    it is, so no alarm transition takes place; pressing it twice is the
    same as pressing it once. *)
Theorem reset_clears_counter_and_window st :
  reset st = State 0 (ALARM_ON st) [] /\
  COUNTER (reset st) = 0%Z /\
  ear_history (reset st) = [] /\
  ALARM_ON (reset st) = ALARM_ON st /\
  observed_transition st (reset st) = None /\
  reset (reset st) = reset st.
Proof.
  unfold observed_transition, reset. simpl.
  repeat split. now destruct (ALARM_ON st).
Qed.

(** C1, as stated, fails: after 25 frames of ratio 0.10 the alarm is on,
    and it is still on after a reset. *)
Lemma reset_keeps_alarm_on :
  reachable reference_args drowsy_state /\
  ALARM_ON drowsy_state = true /\
  ALARM_ON (reset drowsy_state) = true /\
  reset drowsy_state <> State 0 false [].
Proof.
  split; [exact drowsy_state_reachable|].
  split; [now vm_compute|]. split; [now vm_compute|].
  vm_compute. discriminate.
Qed.

(** A consequence: when the alarm was on at the reset, 25 further closed
    frames bring the counter back to 25 without any [TurnedOn] and without
    any alarm call. *)
Lemma closing_after_reset_is_silent :
  let '(st, outs) :=
    run reference_args (reset drowsy_state) (steady 25 0.10) in
  COUNTER st = 25%Z /\
  map event outs = repeat None 25 /\
  concat (map actions outs) = [].
Proof. now vm_compute. Qed.

(** ** Status *)

(** C2, as the code has it. The status of a frame is Drowsy exactly when a
    face was found, the smoothed ratio is below the threshold and the
    counter, once incremented, has reached the required number of frames.
    A Drowsy status implies that the alarm is on after the update; on a
    frame without a face, or with a smoothed ratio at or above the
    threshold, the status is Awake whatever the alarm flag says. *)
Theorem status_drowsy_iff_closed_and_counted a st ear fd :
  let st' := fst (update a st ear fd) in
  let o := snd (update a st ear fd) in
  let smoothed := smoothed_ear (push_history (ear_history st) ear) in
  (status_text o = Drowsy <->
     fd = true /\ smoothed < args_ear a /\
     (args_frames a <= COUNTER st + 1)%Z) /\
  (status_text o = Drowsy -> ALARM_ON st' = true) /\
  (fd = false -> status_text o = Awake) /\
  (args_ear a <= smoothed -> status_text o = Awake).
Proof.
  cbv zeta.
  assert (Hiff : status_text (snd (update a st ear fd)) = Drowsy <->
     fd = true /\
     smoothed_ear (push_history (ear_history st) ear) < args_ear a /\
     (args_frames a <= COUNTER st + 1)%Z).
  { rewrite update_status, frame_coding_closed. tauto. }
  assert (Hnot : forall o, o <> Drowsy -> o = Awake)
    by (intros [|] H; congruence).
  split; [exact Hiff|]. split; [|split].
  - intro H. apply update_status in H as [Hc Hf].
    rewrite update_alarm_on, Hc.
    apply Z.leb_le in Hf. rewrite Hf. apply orb_true_r.
  - intros ->. reflexivity.
  - intro Hge. apply Hnot. intro H. apply Hiff in H as [_ [Hlt _]].
    exact (Qlt_not_le _ _ Hlt Hge).
Qed.

Lemma status_drowsy_iff_closed_and_counted_witness :
  status_text (snd (update reference_args drowsy_state 0.10 true)) = Drowsy /\
  ALARM_ON (fst (update reference_args drowsy_state 0.10 true)) = true /\
  status_text (snd (update reference_args drowsy_state 0.90 false)) = Awake /\
  status_text (snd (update reference_args drowsy_state 0.90 true)) = Awake.
Proof.
  pose proof (status_drowsy_iff_closed_and_counted
                reference_args drowsy_state 0.10 true) as [H1 [H2 _]].
  pose proof (status_drowsy_iff_closed_and_counted
                reference_args drowsy_state 0.90 false) as [_ [_ [H3 _]]].
  pose proof (status_drowsy_iff_closed_and_counted
                reference_args drowsy_state 0.90 true) as [_ [_ [_ H4]]].
  assert (D : status_text (snd (update reference_args drowsy_state 0.10 true))
              = Drowsy).
  { apply H1. split; [reflexivity|]. split; [now vm_compute|]. vm_compute.
    discriminate. }
  split; [exact D|]. split; [exact (H2 D)|].
  split; [exact (H3 eq_refl)|].
  apply H4. vm_compute. discriminate.
Defined.

(** C2, as stated, fails: with the alarm on, a frame without a face and a
    frame with a face and a high ratio both leave the alarm on and show
    Awake. *)
Lemma status_awake_while_alarm_on :
  reachable reference_args drowsy_state /\
  (let st' := fst (update reference_args drowsy_state 0.10 false) in
   let o := snd (update reference_args drowsy_state 0.10 false) in
   ALARM_ON st' = true /\ status_text o = Awake /\
   ~ (status_text o = Drowsy <-> ALARM_ON st' = true)) /\
  (let st' := fst (update reference_args drowsy_state 0.90 true) in
   let o := snd (update reference_args drowsy_state 0.90 true) in
   ALARM_ON st' = true /\ status_text o = Awake /\
   ~ (status_text o = Drowsy <-> ALARM_ON st' = true)).
Proof.
  split; [exact drowsy_state_reachable|].
  split; vm_compute; (split; [reflexivity|]); (split; [reflexivity|]);
    intros [_ H]; specialize (H eq_refl); discriminate H.
Qed.

(** ** The counter *)

(** C4. On a frame with a face, with threshold T and margin M = 0.02: a
    smoothed ratio below T adds exactly 1 to the counter; a smoothed ratio
    from T up to and including T + M leaves it unchanged; only a smoothed
    ratio above T + M takes 1 off, stopping at 0. *)
Theorem hysteresis_counter a st ear :
  let smoothed := smoothed_ear (push_history (ear_history st) ear) in
  let c' := COUNTER (fst (update a st ear true)) in
  margin == 0.02 /\
  (smoothed < args_ear a -> c' = (COUNTER st + 1)%Z) /\
  (args_ear a <= smoothed -> smoothed <= args_ear a + margin ->
     c' = COUNTER st) /\
  (args_ear a + margin < smoothed -> c' = Z.max 0 (COUNTER st - 1)) /\
  (c' = Z.max 0 (COUNTER st - 1) -> (0 < COUNTER st)%Z ->
     args_ear a + margin < smoothed).
Proof.
  cbv zeta. split; [reflexivity|].
  rewrite update_counter. repeat split.
  - intro H.
    assert (E : frame_coding a st ear true = Closed)
      by (apply frame_coding_closed; tauto).
    now rewrite E.
  - intros H1 H2. now rewrite frame_coding_neither.
  - intro H.
    assert (E : frame_coding a st ear true = Opening)
      by (apply frame_coding_opening; tauto).
    now rewrite E.
  - intros Hc Hpos.
    destruct (frame_coding a st ear true) eqn:E; try lia.
    + apply frame_coding_opening in E. tauto.
    + unfold frame_coding in E.
      destruct (Qltb _ (args_ear a)); [discriminate|].
      destruct (Qltb (args_ear a + margin) _); discriminate.
Qed.

Lemma hysteresis_counter_witness :
  COUNTER (fst (update reference_args drowsy_state 0.10 true)) = 26%Z /\
  COUNTER (fst (update reference_args drowsy_state 0.75 true)) = 25%Z /\
  COUNTER (fst (update reference_args drowsy_state 0.90 true)) = 24%Z /\
  COUNTER (fst (update reference_args initial 0.90 true)) = 0%Z.
Proof.
  pose proof (hysteresis_counter reference_args drowsy_state 0.10)
    as [_ [H1 _]].
  pose proof (hysteresis_counter reference_args drowsy_state 0.75)
    as [_ [_ [H2 _]]].
  pose proof (hysteresis_counter reference_args drowsy_state 0.90)
    as [_ [_ [_ [H3 _]]]].
  pose proof (hysteresis_counter reference_args initial 0.90)
    as [_ [_ [_ [H4 _]]]].
  cbv zeta in *.
  split; [rewrite H1; now vm_compute|].
  split; [rewrite H2; [now vm_compute| |]; vm_compute; discriminate|].
  split; [rewrite H3; now vm_compute|].
  rewrite H4; now vm_compute.
Defined.

(** C8. On a frame without a face the counter loses exactly 1, stopping at
    0 (a counter of 0 stays 0); neither the ratio nor the threshold is
    looked at, so the counter never grows on such a frame. *)
Theorem no_face_decays_counter a st ear :
  let c' := COUNTER (fst (update a st ear false)) in
  c' = Z.max 0 (COUNTER st - 1) /\
  (COUNTER st = 0%Z -> c' = 0%Z) /\
  ((0 < COUNTER st)%Z -> c' = (COUNTER st - 1)%Z) /\
  ((0 <= COUNTER st)%Z -> (c' <= COUNTER st)%Z) /\
  (forall a2 ear2, update a2 st ear2 false = update a st ear false).
Proof.
  cbv zeta. simpl. repeat split; intros; lia.
Qed.

Lemma no_face_decays_counter_witness :
  COUNTER (fst (update reference_args initial 0.10 false)) = 0%Z /\
  COUNTER (fst (update reference_args drowsy_state 0.10 false)) = 24%Z /\
  (COUNTER (fst (update reference_args drowsy_state 0.10 false))
     <= COUNTER drowsy_state)%Z.
Proof.
  pose proof (no_face_decays_counter reference_args initial 0.10)
    as [_ [H1 _]].
  pose proof (no_face_decays_counter reference_args drowsy_state 0.10)
    as [_ [_ [H2 [H3 _]]]].
  cbv zeta in *.
  split; [apply H1; reflexivity|].
  split; [rewrite H2; now vm_compute|].
  apply H3. now vm_compute.
Defined.

(** ** Frames without a face and the alarm *)

(** C10. A frame without a face changes nothing but the counter: the
    window and [ALARM_ON] keep their values, so an alarm that is on stays
    on even when the counter decays to 0.  [ALARM_ON] goes from true to
    false only in an update with a face whose smoothed ratio is above
    threshold + margin and whose decrement brings the counter to 0; the
    reset does not touch it either. *)
Theorem alarm_cleared_only_by_opening a st ear fd :
  let st' := fst (update a st ear fd) in
  let smoothed := smoothed_ear (push_history (ear_history st) ear) in
  (fd = false ->
     ear_history st' = ear_history st /\ ALARM_ON st' = ALARM_ON st) /\
  (ALARM_ON st = true -> ALARM_ON st' = false ->
     fd = true /\ args_ear a + margin < smoothed /\
     COUNTER st' = Z.max 0 (COUNTER st - 1) /\ COUNTER st' = 0%Z) /\
  ALARM_ON (reset st) = ALARM_ON st.
Proof.
  cbv zeta. split; [|split; [|reflexivity]].
  - intros ->. split; reflexivity.
  - intros Hon Hoff.
    rewrite update_alarm_on, Hon in Hoff.
    rewrite update_counter.
    destruct (frame_coding a st ear fd) eqn:E; simpl in Hoff;
      try discriminate.
    apply frame_coding_opening in E as [-> Hs].
    apply negb_false_iff, Z.eqb_eq in Hoff. tauto.
Qed.

Lemma alarm_cleared_only_by_opening_witness :
  (let st := State 1 true [] in
   let st' := fst (update reference_args st 0.10 false) in
   COUNTER st' = 0%Z /\ ear_history st' = [] /\ ALARM_ON st' = true) /\
  (let st := State 1 true [] in
   let st' := fst (update reference_args st 0.90 true) in
   ALARM_ON st' = false /\ COUNTER st' = 0%Z /\
   0.22 + 0.02 < smoothed_ear (push_history [] 0.90)).
Proof.
  cbv zeta. split.
  - destruct (alarm_cleared_only_by_opening
                reference_args (State 1 true []) 0.10 false) as [H _].
    destruct (H eq_refl) as [H1 H2].
    split; [reflexivity|]. split; [exact H1 | exact H2].
  - destruct (alarm_cleared_only_by_opening
                reference_args (State 1 true []) 0.90 true) as [_ [H _]].
    destruct (H eq_refl) as [_ [H1 [_ H2]]]; [now vm_compute|].
    split; [now vm_compute|]. split; [exact H2 | exact H1].
Defined.

(** ** Bounds on the counter and the window *)

Lemma reachable_invariant a st :
  reachable a st ->
  (0 <= COUNTER st)%Z /\ (length (ear_history st) <= 5)%nat.
Proof.
  induction 1 as [|st ear fd _ [IHc IHw]|st _ _].
  - simpl. split; lia.
  - rewrite update_counter, update_history. split.
    + destruct (frame_coding a st ear fd); lia.
    + destruct fd; [now apply push_history_bounded | exact IHw].
  - simpl. split; lia.
Qed.

(** C9, as the code has it. In every state the loop can be in (so after
    every update and every reset) the counter is non-negative and the
    window holds at most 5 values.  An update moves the counter by at most
    1: up by exactly 1 on a frame coded as closed, down by 1 but not below
    0 on a frame coded as opening or without a face, not at all otherwise;
    with a face the new window is the last five values of the old window
    followed by the new ratio, without a face it is the old window.  A
    reset sets the counter to 0, whatever it was, and empties the
    window. *)
Theorem counter_and_window_bounds a st :
  reachable a st ->
  (0 <= COUNTER st)%Z /\
  (length (ear_history st) <= 5)%nat /\
  (forall ear fd,
     let st' := fst (update a st ear fd) in
     (0 <= COUNTER st')%Z /\
     (Z.abs (COUNTER st' - COUNTER st) <= 1)%Z /\
     COUNTER st' =
       match frame_coding a st ear fd with
       | Closed => (COUNTER st + 1)%Z
       | Opening | NoFace => Z.max 0 (COUNTER st - 1)
       | Neither => COUNTER st
       end /\
     (length (ear_history st') <= 5)%nat /\
     ear_history st' =
       if fd
       then skipn (length (ear_history st ++ [ear]) - 5)
                  (ear_history st ++ [ear])
       else ear_history st) /\
  COUNTER (reset st) = 0%Z /\
  ear_history (reset st) = [].
Proof.
  intro Hst. destruct (reachable_invariant a st Hst) as [Hc Hw].
  split; [exact Hc|]. split; [exact Hw|].
  split; [|split; reflexivity].
  intros ear fd. cbv zeta.
  destruct (reachable_invariant a _ (reachable_update a st ear fd Hst))
    as [Hc' Hw'].
  split; [exact Hc'|].
  split; [rewrite update_counter; destruct (frame_coding a st ear fd); lia|].
  split; [apply update_counter|].
  split; [exact Hw'|].
  rewrite update_history. destruct fd; [|reflexivity].
  now apply push_history_fifo.
Qed.

Lemma counter_and_window_bounds_witness :
  (0 <= COUNTER drowsy_state)%Z /\
  (length (ear_history drowsy_state) <= 5)%nat /\
  COUNTER (fst (update reference_args drowsy_state 0.10 true)) = 26%Z /\
  COUNTER (reset drowsy_state) = 0%Z.
Proof.
  destruct (counter_and_window_bounds reference_args drowsy_state
              drowsy_state_reachable) as [H1 [H2 [H3 [H4 _]]]].
  split; [exact H1|]. split; [exact H2|]. split; [|exact H4].
  destruct (H3 0.10 true) as [_ [_ [H5 _]]].
  cbv zeta in H5. rewrite H5. now vm_compute.
Defined.

(** C9, as stated, fails: a reset takes the counter from 25 to 0 in one
    step; and a frame without a face met with the counter at 0 is coded
    as no-face without the counter going down by 1. *)
Lemma reset_moves_counter_by_more_than_one :
  reachable reference_args drowsy_state /\
  COUNTER drowsy_state = 25%Z /\
  COUNTER (reset drowsy_state) = 0%Z /\
  ~ (Z.abs (COUNTER (reset drowsy_state) - COUNTER drowsy_state) <= 1)%Z /\
  frame_coding reference_args initial 0.10 false = NoFace /\
  COUNTER (fst (update reference_args initial 0.10 false))
    <> (COUNTER initial - 1)%Z.
Proof.
  split; [exact drowsy_state_reachable|].
  split; [now vm_compute|]. split; [reflexivity|].
  split; [vm_compute; intro H; now apply H|].
  split; [reflexivity | discriminate].
Qed.

(** ** The alarm latch *)

Lemma update_latch a st ear fd :
  match event (snd (update a st ear fd)) with
  | Some TurnedOn =>
      ALARM_ON st = false /\ ALARM_ON (fst (update a st ear fd)) = true
  | Some TurnedOff =>
      ALARM_ON st = true /\ ALARM_ON (fst (update a st ear fd)) = false
  | None => ALARM_ON (fst (update a st ear fd)) = ALARM_ON st
  end.
Proof.
  rewrite update_event. unfold observed_transition.
  destruct (ALARM_ON st), (ALARM_ON (fst (update a st ear fd))); auto.
Qed.

Lemma run_latched a fs : forall st,
  latched (ALARM_ON st) (map event (snd (run a st fs))) = true.
Proof.
  induction fs as [|f fs IH]; intro st; simpl; [reflexivity|].
  pose proof (update_latch a st (combined_ear f) (face_detected f)) as Hstep.
  destruct (update a st (combined_ear f) (face_detected f)) as [st1 o].
  specialize (IH st1).
  destruct (run a st1 fs) as [st2 os]. simpl in *.
  destruct (event o) as [[|]|].
  - destruct Hstep as [-> Hon]. rewrite Hon in IH. exact IH.
  - destruct Hstep as [_ Hoff]. rewrite Hoff in IH. exact IH.
  - rewrite Hstep in IH. exact IH.
Qed.

Lemma latched_armed evs : forall j,
  latched true evs = true ->
  nth_error evs j = Some (Some TurnedOn) ->
  exists k, (k < j)%nat /\ nth_error evs k = Some (Some TurnedOff).
Proof.
  induction evs as [|e evs IH]; intros j H Hj.
  - destruct j; discriminate.
  - destruct j as [|j]; simpl in Hj.
    + injection Hj as ->. discriminate.
    + destruct e as [[|]|]; simpl in H.
      * discriminate.
      * exists 0%nat. split; [lia | reflexivity].
      * destruct (IH j H Hj) as [k [Hk Ek]].
        exists (S k). split; [lia | exact Ek].
Qed.

Lemma latched_between evs : forall armed i j,
  latched armed evs = true -> (i < j)%nat ->
  nth_error evs i = Some (Some TurnedOn) ->
  nth_error evs j = Some (Some TurnedOn) ->
  exists k, (i < k < j)%nat /\ nth_error evs k = Some (Some TurnedOff).
Proof.
  induction evs as [|e evs IH]; intros armed i j H Hij Hi Hj.
  - destruct i; discriminate.
  - destruct j as [|j]; [lia|].
    destruct i as [|i]; simpl in Hi, Hj.
    + injection Hi as ->. simpl in H.
      destruct armed; [discriminate|].
      destruct (latched_armed evs j H Hj) as [k [Hk Ek]].
      exists (S k). split; [lia | exact Ek].
    + assert (Hrest : exists armed', latched armed' evs = true).
      { destruct e as [[|]|]; simpl in H.
        - destruct armed; [discriminate | eauto].
        - eauto.
        - eauto. }
      destruct Hrest as [armed' H'].
      destruct (IH armed' i j H' ltac:(lia) Hi Hj) as [k [Hk Ek]].
      exists (S k). split; [lia | exact Ek].
Qed.

Lemma run_events a fs : forall st,
  map event (snd (run a st fs)) = transitions st (states a st fs).
Proof.
  induction fs as [|f fs IH]; intro st; simpl; [reflexivity|].
  pose proof (update_event a st (combined_ear f) (face_detected f)) as He.
  destruct (update a st (combined_ear f) (face_detected f)) as [st1 o].
  specialize (IH st1). destruct (run a st1 fs) as [st2 os].
  simpl in *. now rewrite He, IH.
Qed.

Lemma alarm_actions_spelled_out a :
  alarm_actions a
    = (if args_silent a then [] else [PlayAlarm]) ++
      (if args_log a then [LogDrowsinessEvent] else []).
Proof. unfold alarm_actions. now destruct (args_silent a). Qed.

(** C7. In the outputs of any sequence of frames, from any state, two
    [TurnedOn] events are always separated by a [TurnedOff]; the alarm
    calls ([play_alarm], [log_drowsiness_event]) are made on the frames
    that show [TurnedOn] and on no others, and [TurnedOn] shows only
    when [ALARM_ON] goes from false to true.  Conversely every switch of
    [ALARM_ON] from false to true shows [TurnedOn]: the events of a run
    are exactly the changes of [ALARM_ON] from one state to the next, so
    each continuous stretch with the alarm on has one [TurnedOn], on its
    first frame.  On that frame the calls are [play_alarm] (unless
    [--silent]) followed by [log_drowsiness_event] (with [--log]), once
    each; on every other frame there is none. *)
Theorem alarm_latch a st fs :
  let outs := snd (run a st fs) in
  (forall i j, (i < j)%nat ->
     nth_error (map event outs) i = Some (Some TurnedOn) ->
     nth_error (map event outs) j = Some (Some TurnedOn) ->
     exists k, (i < k < j)%nat /\
               nth_error (map event outs) k = Some (Some TurnedOff)) /\
  Forall (fun o => actions o = match event o with
                               | Some TurnedOn => alarm_actions a
                               | _ => []
                               end) outs /\
  (forall ear fd, event (snd (update a st ear fd)) = Some TurnedOn ->
     ALARM_ON st = false /\ ALARM_ON (fst (update a st ear fd)) = true) /\
  (forall ear fd,
     ALARM_ON st = false -> ALARM_ON (fst (update a st ear fd)) = true ->
     event (snd (update a st ear fd)) = Some TurnedOn) /\
  map event outs = transitions st (states a st fs) /\
  Forall (fun o => actions o =
                   match event o with
                   | Some TurnedOn =>
                       (if args_silent a then [] else [PlayAlarm]) ++
                       (if args_log a then [LogDrowsinessEvent] else [])
                   | _ => []
                   end) outs.
Proof.
  cbv zeta.
  assert (Hact : Forall (fun o => actions o = match event o with
                                              | Some TurnedOn => alarm_actions a
                                              | _ => []
                                              end) (snd (run a st fs))).
  { revert st. induction fs as [|f fs IH]; intro st; simpl; [constructor|].
    pose proof (update_actions a st (combined_ear f) (face_detected f)) as Ha.
    destruct (update a st (combined_ear f) (face_detected f)) as [st1 o].
    specialize (IH st1). destruct (run a st1 fs) as [st2 os].
    constructor; [exact Ha | exact IH]. }
  split; [|split; [exact Hact | split; [|split; [|split]]]].
  - intros i j. apply (latched_between _ (ALARM_ON st)). apply run_latched.
  - intros ear fd H. pose proof (update_latch a st ear fd) as L.
    now rewrite H in L.
  - intros ear fd Hoff Hon. rewrite update_event.
    unfold observed_transition. now rewrite Hoff, Hon.
  - apply run_events.
  - revert Hact. apply Forall_impl. intros o Ho.
    now rewrite Ho, alarm_actions_spelled_out.
Qed.

Lemma alarm_latch_witness :
  exists k, (0 < k < 4)%nat /\
    nth_error (map event (snd (run quick_args initial two_episodes))) k
      = Some (Some TurnedOff).
Proof.
  apply (proj1 (alarm_latch quick_args initial two_episodes) 0%nat 4%nat).
  - lia.
  - now vm_compute.
  - now vm_compute.
Defined.

(** ** The end-to-end scenario *)

Lemma last_default_irrelevant {A : Type} (l : list A) : forall v d d',
  last (v :: l) d = last (v :: l) d'.
Proof.
  induction l as [|w l IH]; intros v d d'; [reflexivity|].
  change (last (w :: l) d = last (w :: l) d'). apply IH.
Qed.

(** [states] lists the states [run] goes through; its last one is the
    state [run] ends in. *)
Lemma states_run a fs : forall st,
  last (states a st fs) st = fst (run a st fs).
Proof.
  induction fs as [|f fs IH]; intro st; [reflexivity|].
  simpl run. simpl states.
  destruct (update a st (combined_ear f) (face_detected f)) as [st1 o].
  simpl fst. specialize (IH st1).
  destruct (run a st1 fs) as [st2 os]. simpl fst in *.
  destruct (states a st1 fs) as [|s ss].
  - exact IH.
  - change (last (s :: ss) st = st2).
    rewrite <- IH. apply last_default_irrelevant.
Qed.

(** C3, as the code has it. Threshold 0.22, 25 required frames, margin
    0.02, from the initial state.  Over 30 frames of ratio 0.10 the counter
    goes 1, 2, ..., 30; the status is Awake on frames 1 to 24 and Drowsy on
    frames 25 to 30; the only event is one [TurnedOn], on frame 25, where
    the counter first reaches 25.  One more frame, of ratio 0.40, gives a
    smoothed ratio of 0.16, still below 0.22: the counter goes up to 31 and
    the status stays Drowsy.  When frames of ratio 0.40 keep coming, the
    status is Awake from the second of them on, while [ALARM_ON] stays true
    and the counter goes 31, 30, ..., 1; on the 33rd the counter reaches 0
    and [TurnedOff] fires. *)
Theorem end_to_end_scenario :
  let a := reference_args in
  let closing := steady 30 0.10 in
  map COUNTER (states a initial closing) = map Z.of_nat (seq 1 30) /\
  map status_text (snd (run a initial closing))
    = repeat Awake 24 ++ repeat Drowsy 6 /\
  map event (snd (run a initial closing))
    = repeat None 24 ++ [Some TurnedOn] ++ repeat None 5 /\
  smoothed_ear (push_history (ear_history scenario_state) 0.40) == 0.16 /\
  COUNTER (fst (update a scenario_state 0.40 true)) = 31%Z /\
  snd (update a scenario_state 0.40 true) = Output Drowsy None [] /\
  map COUNTER (states a scenario_state (steady 33 0.40))
    = 31%Z :: map Z.of_nat (rev (seq 0 32)) /\
  map ALARM_ON (states a scenario_state (steady 33 0.40))
    = repeat true 32 ++ [false] /\
  map status_text (snd (run a scenario_state (steady 33 0.40)))
    = Drowsy :: repeat Awake 32 /\
  map event (snd (run a scenario_state (steady 33 0.40)))
    = repeat None 32 ++ [Some TurnedOff].
Proof.
  cbv zeta. repeat split; now vm_compute.
Qed.

(** C3, as stated, fails.  After the 30 frames of ratio 0.10 and three
    frames of ratio 0.40 the status is Awake although the counter is still
    at 30, the alarm is on and no [TurnedOff] has fired; the single frame
    of ratio 0.40 raised the counter from 30 to 31.  And when the face is
    lost after that single frame, the counter reaches 0 without any
    [TurnedOff]: the alarm flag stays set. *)
Lemma scenario_status_awake_before_counter_zero :
  let a := reference_args in
  let opening := steady 30 0.10 ++ steady 3 0.40 in
  let losing :=
    steady 30 0.10 ++ steady 1 0.40 ++ repeat (Frame 0.40 false) 31 in
  (option_map status_text (nth_error (snd (run a initial opening)) 32)
     = Some Awake /\
   COUNTER (fst (run a initial opening)) = 30%Z /\
   ALARM_ON (fst (run a initial opening)) = true /\
   ~ In (Some TurnedOff) (map event (snd (run a initial opening)))) /\
  (COUNTER scenario_state = 30%Z /\
   COUNTER (fst (update a scenario_state 0.40 true)) = 31%Z) /\
  (COUNTER (fst (run a initial losing)) = 0%Z /\
   ALARM_ON (fst (run a initial losing)) = true /\
   ~ In (Some TurnedOff) (map event (snd (run a initial losing)))).
Proof.
  cbv zeta. repeat split; try now vm_compute.
  - vm_compute. intuition discriminate.
  - vm_compute. intuition discriminate.
Qed.

(** * Further properties of the code *)

(** ** The eye aspect ratio: sign *)

Lemma calculate_ear_short l :
  length l <> 16%nat -> calculate_ear l = Ret 0.
Proof.
  intro Hlen. unfold calculate_ear.
  apply Nat.eqb_neq in Hlen. now rewrite Hlen.
Qed.

Lemma spec_eye_width_nonneg l : 0 <= spec_eye_width l.
Proof. apply Qabs_nonneg. Qed.

Lemma spec_eye_height_nonneg l : 0 <= spec_eye_height l.
Proof. apply Qabs_nonneg. Qed.

Lemma calculate_ear_value l :
  exists r, calculate_ear l = Ret r /\ 0 <= r.
Proof.
  destruct (Nat.eq_dec (length l) 16) as [Hlen | Hlen].
  - destruct (Qlt_le_dec 0 (spec_eye_width l)) as [Hw | Hw].
    + destruct (calculate_ear_open l Hlen Hw) as [r [Hr Er]].
      exists r. split; [exact Hr|]. rewrite Er.
      apply Qle_shift_div_l; [exact Hw|].
      rewrite Qmult_0_l. apply spec_eye_height_nonneg.
    + exists 0. split; [|apply Qle_refl].
      apply calculate_ear_flat; [exact Hlen|].
      intro H. exact (Qlt_not_le _ _ H Hw).
  - exists 0. split; [now apply calculate_ear_short | apply Qle_refl].
Qed.



(** ** Extracting the eyes from the face mesh *)

Lemma extract_in_range face idxs :
  Forall (fun idx => (idx < length face)%nat) idxs ->
  exists ps, extract_eye_landmarks face idxs = Done ps /\
             length ps = length idxs /\
             map Some ps = map (nth_error face) idxs.
Proof.
  induction 1 as [|idx idxs Hidx _ [ps [Hps [Hlen Hmap]]]]; simpl.
  - exists []. repeat split.
  - destruct (nth_error face idx) as [p|] eqn:E.
    + rewrite Hps. simpl. exists (p :: ps). simpl.
      split; [reflexivity|]. split; [now rewrite Hlen | now rewrite Hmap].
    + apply nth_error_None in E. lia.
Qed.

Lemma extract_out_of_range face idxs :
  Exists (fun idx => (length face <= idx)%nat) idxs ->
  extract_eye_landmarks face idxs = Failed IndexError.
Proof.
  induction 1 as [idx idxs Hidx | idx idxs _ IH]; simpl.
  - apply nth_error_None in Hidx. now rewrite Hidx.
  - destruct (nth_error face idx); [|reflexivity]. now rewrite IH.
Qed.

(** [extract_eye_landmarks] returns the landmarks at the given indices, in
    the order of the indices, when every index is inside the mesh; as soon
    as one index is outside, it raises [IndexError] and returns nothing. *)
Theorem extract_eye_landmarks_lookup face idxs :
  (Forall (fun idx => (idx < length face)%nat) idxs ->
   exists ps, extract_eye_landmarks face idxs = Done ps /\
              length ps = length idxs /\
              map Some ps = map (nth_error face) idxs) /\
  (Exists (fun idx => (length face <= idx)%nat) idxs ->
   extract_eye_landmarks face idxs = Failed IndexError).
Proof.
  split; [apply extract_in_range | apply extract_out_of_range].
Qed.

Lemma extract_eye_landmarks_lookup_witness :
  (exists ps,
     extract_eye_landmarks synthetic_eye [3; 0; 15]%nat = Done ps /\
     length ps = 3%nat /\
     map Some ps = map (nth_error synthetic_eye) [3; 0; 15]%nat) /\
  extract_eye_landmarks synthetic_eye [3; 16; 0]%nat = Failed IndexError.
Proof.
  split.
  - apply (proj1 (extract_eye_landmarks_lookup synthetic_eye [3; 0; 15]%nat)).
    repeat constructor.
  - apply (proj2 (extract_eye_landmarks_lookup synthetic_eye [3; 16; 0]%nat)).
    right. left. simpl. lia.
Defined.

Lemma eye_indices_below_467 :
  Forall (fun idx => (idx < 467)%nat) LEFT_EYE_INDICES /\
  Forall (fun idx => (idx < 467)%nat) RIGHT_EYE_INDICES.
Proof.
  split; unfold LEFT_EYE_INDICES, RIGHT_EYE_INDICES;
    repeat (constructor; [lia|]); constructor.
Qed.


Lemma Forall_lt_le (n m : nat) idxs :
  (n <= m)%nat ->
  Forall (fun idx => (idx < n)%nat) idxs ->
  Forall (fun idx => (idx < m)%nat) idxs.
Proof.
  intro Hnm. apply Forall_impl. intros idx H. lia.
Qed.

Lemma frame_ear_full_mesh face :
  (467 <= length face)%nat ->
  exists e, frame_ear face = Done e /\ 0 <= e.
Proof.
  intro Hlen. destruct eye_indices_below_467 as [HL HR].
  destruct (extract_in_range face LEFT_EYE_INDICES
              (Forall_lt_le _ _ _ Hlen HL)) as [ls [El _]].
  destruct (extract_in_range face RIGHT_EYE_INDICES
              (Forall_lt_le _ _ _ Hlen HR)) as [rs [Er _]].
  destruct (calculate_ear_value ls) as [le [Hle Hle0]].
  destruct (calculate_ear_value rs) as [re [Hre Hre0]].
  exists ((le + re) / 2). split.
  - unfold frame_ear, and_then. rewrite El. cbv iota beta.
    rewrite Er. cbv iota beta. rewrite Hle. simpl of_result. cbv iota beta.
    rewrite Hre. reflexivity.
  - apply Qle_shift_div_l; lra.
Qed.

Lemma frame_ear_short_mesh face :
  (length face < 467)%nat -> frame_ear face = Failed IndexError.
Proof.
  intro Hlen. unfold frame_ear.
  rewrite (extract_out_of_range face LEFT_EYE_INDICES); [reflexivity|].
  unfold LEFT_EYE_INDICES. do 9 right. left. lia.
Qed.

(** The ratio of a frame (lines 269 to 279: both eyes extracted, both
    ratios computed, then averaged) exists exactly for meshes of at least
    467 landmarks, the left eye reading index 466: then both eyes are
    found, nothing raises, and the averaged ratio is not negative; with a
    shorter mesh the extraction raises [IndexError]. *)
Theorem frame_ear_needs_467_landmarks face :
  ((467 <= length face)%nat ->
   exists e, frame_ear face = Done e /\ 0 <= e) /\
  ((length face < 467)%nat -> frame_ear face = Failed IndexError).
Proof.
  split.
  - intro Hlen. destruct (frame_ear_full_mesh face Hlen) as [e [He He0]].
    exists e. split; [exact He | exact He0].
  - intro Hlen. exact (frame_ear_short_mesh face Hlen).
Qed.

Lemma frame_ear_needs_467_landmarks_witness :
  (exists e, frame_ear (repeat (Landmark 0.5 0.5 0) 468) = Done e /\ 0 <= e) /\
  frame_ear synthetic_eye = Failed IndexError.
Proof.
  split.
  - apply (proj1 (frame_ear_needs_467_landmarks
                    (repeat (Landmark 0.5 0.5 0) 468))).
    rewrite repeat_length. lia.
  - apply (proj2 (frame_ear_needs_467_landmarks synthetic_eye)).
    simpl. lia.
Defined.

(** ** The smoothing window over a whole run *)

Lemma last_five_short l : (length l <= 5)%nat -> last_five l = l.
Proof.
  intro H. unfold last_five.
  replace (length l - 5)%nat with 0%nat by lia. reflexivity.
Qed.

Lemma last_five_length l : (length (last_five l) <= 5)%nat.
Proof. unfold last_five. rewrite length_skipn. lia. Qed.

Lemma push_last_five l e :
  push_history (last_five l) e = last_five (l ++ [e]).
Proof.
  rewrite (push_history_fifo _ e (last_five_length l)).
  destruct (Nat.le_gt_cases (length l) 5) as [H | H].
  - now rewrite (last_five_short l H).
  - unfold last_five.
    rewrite !length_app, length_skipn. simpl length.
    replace (length l - (length l - 5) + 1 - 5)%nat with 1%nat by lia.
    replace (length l + 1 - 5)%nat with (1 + (length l - 5))%nat by lia.
    rewrite !skipn_app, skipn_skipn, length_skipn.
    replace (1 - (length l - (length l - 5)))%nat with 0%nat by lia.
    replace (1 + (length l - 5) - length l)%nat with 0%nat by lia.
    reflexivity.
Qed.

Lemma run_history_from a fs : forall st l,
  ear_history st = last_five l ->
  ear_history (fst (run a st fs)) = last_five (l ++ ratios_seen fs).
Proof.
  induction fs as [|f fs IH]; intros st l Hst; simpl.
  - unfold ratios_seen. simpl. now rewrite app_nil_r.
  - pose proof (update_history a st (combined_ear f) (face_detected f)) as Hh.
    destruct (update a st (combined_ear f) (face_detected f)) as [st1 o].
    simpl in Hh.
    assert (Hst1 : ear_history st1 =
                   last_five (l ++ ratios_seen [f])).
    { rewrite Hh. unfold ratios_seen. simpl.
      destruct (face_detected f); simpl.
      - rewrite Hst. apply push_last_five.
      - now rewrite app_nil_r. }
    specialize (IH st1 _ Hst1).
    destruct (run a st1 fs) as [st2 os]. simpl in *.
    rewrite IH, <- app_assoc. f_equal. f_equal.
    unfold ratios_seen. simpl. now destruct (face_detected f).
Qed.

(** After any run, the window holds the last five values of the old
    window followed by the ratios of the frames that had a face: frames
    without a face do not age it, and neither the threshold nor the counter
    nor the alarm has any say.  After five frames with a face nothing of
    the old window is left. *)
Theorem window_is_last_five_ratios a st fs :
  (length (ear_history st) <= 5)%nat ->
  ear_history (fst (run a st fs))
    = last_five (ear_history st ++ ratios_seen fs) /\
  ((5 <= length (ratios_seen fs))%nat ->
   ear_history (fst (run a st fs)) = last_five (ratios_seen fs)).
Proof.
  intro Hlen.
  assert (E : ear_history (fst (run a st fs))
              = last_five (ear_history st ++ ratios_seen fs)).
  { apply run_history_from. symmetry. now apply last_five_short. }
  split; [exact E|].
  intro Hfive. rewrite E. unfold last_five.
  rewrite length_app, skipn_app.
  replace (length (ear_history st) + length (ratios_seen fs) - 5
           - length (ear_history st))%nat
    with (length (ratios_seen fs) - 5)%nat by lia.
  rewrite skipn_all2 by lia. reflexivity.
Qed.

Lemma window_is_last_five_ratios_witness :
  ear_history
    (fst (run reference_args drowsy_state
            [Frame 0.3 true; Frame 0.9 false; Frame 0.4 true]))
  = last_five (ear_history drowsy_state ++ [0.3; 0.4]).
Proof.
  refine (proj1 (window_is_last_five_ratios reference_args drowsy_state
                   [Frame 0.3 true; Frame 0.9 false; Frame 0.4 true] _)).
  apply Nat.leb_le. now vm_compute.
Defined.

(** ** Runs of frames of one kind *)

(** Sustained closure.  While every frame of a run is coded as closed (a
    face is found and the smoothed ratio is below the threshold), each
    frame counts: after n such frames the counter has gone up by exactly
    n, and the alarm is on exactly if it was on before or the counter has
    reached the required number of frames (n > 0). *)
Theorem sustained_closure_counts_every_frame a st fs :
  all_coded a Closed st fs ->
  COUNTER (fst (run a st fs)) = (COUNTER st + Z.of_nat (length fs))%Z /\
  ALARM_ON (fst (run a st fs)) =
    ALARM_ON st ||
    (negb (length fs =? 0)%nat &&
     (args_frames a <=? COUNTER st + Z.of_nat (length fs))%Z).
Proof.
  revert st. induction fs as [|f fs IH]; intros st Hfs.
  - simpl. split; [lia | now rewrite orb_false_r].
  - destruct Hfs as [Hcode Hrest].
    pose proof (update_counter a st (combined_ear f) (face_detected f)) as Hc.
    pose proof (update_alarm_on a st (combined_ear f) (face_detected f))
      as Ha.
    rewrite Hcode in Hc, Ha.
    simpl run.
    destruct (update a st (combined_ear f) (face_detected f)) as [st1 o].
    simpl in Hc, Ha, Hrest.
    destruct (IH st1 Hrest) as [IHc IHa].
    destruct (run a st1 fs) as [st2 os]. simpl in *.
    rewrite IHc, IHa, Hc, Ha.
    split; [lia|].
    replace (Z.pos (Pos.of_succ_nat (length fs)))
      with (Z.of_nat (length fs) + 1)%Z by lia.
    destruct (ALARM_ON st); simpl; [reflexivity|].
    destruct (Nat.eqb_spec (length fs) 0) as [E | E];
      destruct (Z.leb_spec (args_frames a) (COUNTER st + 1));
      destruct (Z.leb_spec (args_frames a)
                  (COUNTER st + 1 + Z.of_nat (length fs)));
      destruct (Z.leb_spec (args_frames a)
                  (COUNTER st + (Z.of_nat (length fs) + 1)));
      simpl; try reflexivity; lia.
Qed.

Lemma sustained_closure_counts_every_frame_witness :
  COUNTER (fst (run quick_args initial [Frame 0.1 true; Frame 0.2 true]))
    = (COUNTER initial + 2)%Z /\
  ALARM_ON (fst (run quick_args initial [Frame 0.1 true; Frame 0.2 true]))
    = ALARM_ON initial || (negb (2 =? 0)%nat && (1 <=? COUNTER initial + 2)%Z).
Proof.
  apply (sustained_closure_counts_every_frame quick_args initial
           [Frame 0.1 true; Frame 0.2 true]).
  split; [now vm_compute|]. split; [now vm_compute | exact I].
Defined.

(** Sustained opening.  From a counter that is not negative, while every
    frame of a run is coded as opening (a face is found and the smoothed
    ratio is above threshold + margin), n frames take n off the counter,
    stopping at 0; the alarm stays as it was while the counter is positive
    and is off as soon as the counter has reached 0. *)
Theorem sustained_opening_clears_alarm a st fs :
  (0 <= COUNTER st)%Z ->
  all_coded a Opening st fs ->
  COUNTER (fst (run a st fs))
    = Z.max 0 (COUNTER st - Z.of_nat (length fs)) /\
  ALARM_ON (fst (run a st fs)) =
    ALARM_ON st &&
    ((length fs =? 0)%nat || (0 <? COUNTER st - Z.of_nat (length fs))%Z).
Proof.
  revert st. induction fs as [|f fs IH]; intros st Hpos Hfs.
  - simpl. split; [lia | now rewrite andb_true_r].
  - destruct Hfs as [Hcode Hrest].
    pose proof (update_counter a st (combined_ear f) (face_detected f)) as Hc.
    pose proof (update_alarm_on a st (combined_ear f) (face_detected f))
      as Ha.
    rewrite Hcode in Hc, Ha.
    simpl run.
    destruct (update a st (combined_ear f) (face_detected f)) as [st1 o].
    simpl in Hc, Ha, Hrest.
    assert (Hpos1 : (0 <= COUNTER st1)%Z) by lia.
    destruct (IH st1 Hpos1 Hrest) as [IHc IHa].
    destruct (run a st1 fs) as [st2 os]. simpl in *.
    rewrite IHc, IHa, Hc, Ha.
    replace (Z.pos (Pos.of_succ_nat (length fs)))
      with (Z.of_nat (length fs) + 1)%Z by lia.
    split; [lia|].
    destruct (ALARM_ON st); simpl; [|reflexivity].
    destruct (Nat.eqb_spec (length fs) 0) as [E | E];
      destruct (Z.eqb_spec (Z.max 0 (COUNTER st - 1)) 0);
      destruct (Z.ltb_spec 0
                  (Z.max 0 (COUNTER st - 1) - Z.of_nat (length fs)));
      destruct (Z.ltb_spec 0
                  (COUNTER st - (Z.of_nat (length fs) + 1)));
      simpl; try reflexivity; lia.
Qed.

Lemma sustained_opening_clears_alarm_witness :
  COUNTER (fst (run reference_args (State 2 true [])
                  [Frame 0.5 true; Frame 0.6 true]))
    = Z.max 0 (2 - 2) /\
  ALARM_ON (fst (run reference_args (State 2 true [])
                   [Frame 0.5 true; Frame 0.6 true]))
    = true && ((2 =? 0)%nat || (0 <? 2 - 2)%Z).
Proof.
  apply (sustained_opening_clears_alarm reference_args (State 2 true [])
           [Frame 0.5 true; Frame 0.6 true]).
  - simpl. lia.
  - split; [now vm_compute|]. split; [now vm_compute | exact I].
Defined.

(** Losing the face.  From a counter that is not negative, n frames
    without a face take n off the counter, stopping at 0, and change
    nothing else: the window is kept, an alarm that was on is still on
    however long the face stays away, and every such frame shows Awake
    with no event and no alarm call. *)
Theorem face_loss_never_clears_alarm a st fs :
  (0 <= COUNTER st)%Z ->
  faceless fs ->
  fst (run a st fs)
    = State (Z.max 0 (COUNTER st - Z.of_nat (length fs)))
            (ALARM_ON st) (ear_history st) /\
  snd (run a st fs) = repeat (Output Awake None []) (length fs).
Proof.
  revert st. induction fs as [|f fs IH]; intros st Hpos Hfs.
  - simpl. split; [|reflexivity]. destruct st as [c al h]. simpl in *.
    f_equal. lia.
  - inversion Hfs as [|f' fs' Hfd Hrest]; subst.
    simpl run. rewrite Hfd. simpl update.
    destruct (IH (State (Z.max 0 (COUNTER st - 1)) (ALARM_ON st)
                    (ear_history st))) as [IH1 IH2];
      [simpl; lia | exact Hrest |].
    destruct (run a _ fs) as [st2 os]. simpl in *.
    subst st2 os. split; [|reflexivity]. f_equal. lia.
Qed.

Lemma face_loss_never_clears_alarm_witness :
  fst (run reference_args (State 2 true [0.1])
         (repeat (Frame 0.3 false) 5))
    = State (Z.max 0 (2 - 5)) true [0.1] /\
  snd (run reference_args (State 2 true [0.1])
         (repeat (Frame 0.3 false) 5))
    = repeat (Output Awake None []) 5.
Proof.
  apply (face_loss_never_clears_alarm reference_args (State 2 true [0.1])
           (repeat (Frame 0.3 false) 5)).
  - simpl. lia.
  - repeat constructor.
Defined.

(** ** How early the alarm can fire *)

Lemma update_counter_step a st ear fd :
  (0 <= COUNTER st)%Z ->
  (0 <= COUNTER (fst (update a st ear fd)) <= COUNTER st + 1)%Z.
Proof.
  intro Hpos. rewrite update_counter.
  destruct (frame_coding a st ear fd); lia.
Qed.

Lemma update_turned_on a st ear fd :
  event (snd (update a st ear fd)) = Some TurnedOn ->
  (args_frames a <= COUNTER st + 1)%Z.
Proof.
  destruct fd; [|discriminate].
  update_cases a st ear; try discriminate.
  intros _. now apply Z.leb_le.
Qed.

(** Debounce.  From a counter that is not negative, a [TurnedOn] on the
    frame of index i (counting from 0) needs the counter to have reached
    the required number of frames, which takes one frame per step: the
    required number is at most the starting counter plus i + 1.  From the
    initial state no alarm fires before frame number [args.frames]. *)
Theorem alarm_not_before_required_frames a st fs i :
  (0 <= COUNTER st)%Z ->
  nth_error (map event (snd (run a st fs))) i = Some (Some TurnedOn) ->
  (args_frames a <= COUNTER st + Z.of_nat i + 1)%Z.
Proof.
  revert st i. induction fs as [|f fs IH]; intros st i Hpos Hi.
  - destruct i; discriminate.
  - simpl in Hi.
    pose proof (update_counter_step a st (combined_ear f) (face_detected f)
                  Hpos) as Hstep.
    pose proof (update_turned_on a st (combined_ear f) (face_detected f))
      as Hon.
    destruct (update a st (combined_ear f) (face_detected f)) as [st1 o].
    specialize (IH st1).
    destruct (run a st1 fs) as [st2 os]. simpl in *.
    destruct i as [|i]; simpl in Hi.
    + injection Hi as Hi. specialize (Hon Hi). lia.
    + specialize (IH i ltac:(lia) Hi). lia.
Qed.

Lemma alarm_not_before_required_frames_witness :
  (25 <= COUNTER initial + Z.of_nat 24 + 1)%Z.
Proof.
  apply (alarm_not_before_required_frames reference_args initial
           (steady 30 0.10) 24).
  - simpl. lia.
  - now vm_compute.
Defined.

(** ** What holds while the alarm is off *)

(** With at least one required frame, in every state the loop can be in
    (any frames, any resets): while the alarm is off, the counter is below
    the required number of frames. *)
Theorem alarm_off_means_counter_below_required a st :
  (0 < args_frames a)%Z ->
  reachable a st ->
  ALARM_ON st = false -> (COUNTER st < args_frames a)%Z.
Proof.
  intros Hframes Hst. induction Hst as [|st ear fd _ IH|st _ IH].
  - intros _. simpl. exact Hframes.
  - rewrite update_alarm_on, update_counter.
    destruct (frame_coding a st ear fd); intro Hoff.
    + apply orb_false_iff in Hoff as [Hoff Hlt].
      apply Z.leb_gt in Hlt. exact Hlt.
    + apply andb_false_iff in Hoff as [Hoff | Hzero].
      * specialize (IH Hoff). lia.
      * apply negb_false_iff, Z.eqb_eq in Hzero. lia.
    + exact (IH Hoff).
    + specialize (IH Hoff). lia.
  - intros _. simpl. exact Hframes.
Qed.

Lemma alarm_off_means_counter_below_required_witness :
  (COUNTER (fst (run reference_args initial (steady 24 0.10))) < 25)%Z.
Proof.
  apply (alarm_off_means_counter_below_required reference_args).
  - simpl. lia.
  - apply run_reachable. constructor.
  - now vm_compute.
Defined.

(** ** Silent mode and logging *)

Lemma update_same_detection a b st ear fd :
  same_detection a b ->
  fst (update a st ear fd) = fst (update b st ear fd) /\
  status_text (snd (update a st ear fd))
    = status_text (snd (update b st ear fd)) /\
  event (snd (update a st ear fd)) = event (snd (update b st ear fd)).
Proof.
  intros [He Hf]. unfold update. rewrite He, Hf.
  destruct fd; [|repeat split].
  destruct (Qltb _ (args_ear b)).
  - destruct (args_frames b <=? _)%Z; [|repeat split].
    destruct (negb (ALARM_ON st)); repeat split.
  - destruct (Qltb (args_ear b + margin) _); [|repeat split].
    destruct (_ =? 0)%Z; repeat split.
Qed.

(** [--silent] and [--log] change nothing but the alarm calls: two
    configurations with the same threshold and the same number of
    required frames go through the same states and show the same statuses
    and events on every run. *)
Theorem silent_and_log_only_change_actions a b st fs :
  same_detection a b ->
  fst (run a st fs) = fst (run b st fs) /\
  map status_text (snd (run a st fs)) = map status_text (snd (run b st fs)) /\
  map event (snd (run a st fs)) = map event (snd (run b st fs)).
Proof.
  intro Hsame. revert st. induction fs as [|f fs IH]; intro st.
  - repeat split.
  - simpl.
    destruct (update_same_detection a b st (combined_ear f)
                (face_detected f) Hsame) as [Hst [Hs He]].
    destruct (update a st (combined_ear f) (face_detected f)) as [sa oa].
    destruct (update b st (combined_ear f) (face_detected f)) as [sb ob].
    simpl in Hst, Hs, He. subst sb.
    destruct (IH sa) as [IH1 [IH2 IH3]].
    destruct (run a sa fs) as [sa2 osa].
    destruct (run b sa fs) as [sb2 osb].
    simpl in *. now rewrite IH1, IH2, IH3, Hs, He.
Qed.

Lemma silent_and_log_only_change_actions_witness :
  fst (run reference_args initial (steady 30 0.10))
    = fst (run (Args 0.22 25 true true) initial (steady 30 0.10)) /\
  map status_text (snd (run reference_args initial (steady 30 0.10)))
    = map status_text
        (snd (run (Args 0.22 25 true true) initial (steady 30 0.10))) /\
  map event (snd (run reference_args initial (steady 30 0.10)))
    = map event
        (snd (run (Args 0.22 25 true true) initial (steady 30 0.10))).
Proof.
  apply (silent_and_log_only_change_actions reference_args
           (Args 0.22 25 true true) initial (steady 30 0.10)).
  split; reflexivity.
Defined.

(** ** The keys of the main loop *)

Lemma handle_key_alarm k st : ALARM_ON (handle_key k st) = ALARM_ON st.
Proof. destruct k; reflexivity. Qed.

(** 'q' ends the loop after the frame it was read on: whatever was
    grabbed afterwards is never processed.  'd' and no key at all leave
    the detection alone: with only those, the loop is the plain run over
    the frames. *)
Theorem keys_q_stops_d_is_inert a st :
  (forall pre f post,
     main_loop a st (pre ++ (f, KeyQ) :: post)
       = main_loop a st (pre ++ [(f, KeyQ)])) /\
  (forall inputs,
     Forall (fun fk => snd fk = KeyD \/ snd fk = NoKey) inputs ->
     main_loop a st inputs = run a st (map fst inputs)).
Proof.
  split.
  - intros pre f post. revert st.
    induction pre as [|[g k] pre IH]; intro st; simpl.
    + now destruct (update a st (combined_ear f) (face_detected f)).
    + destruct (update a st (combined_ear g) (face_detected g)) as [st1 o].
      destruct k; try reflexivity; now rewrite IH.
  - intros inputs Hkeys. revert st.
    induction Hkeys as [|[g k] inputs Hk _ IH]; intro st; simpl.
    + reflexivity.
    + destruct (update a st (combined_ear g) (face_detected g)) as [st1 o].
      simpl in Hk.
      destruct Hk as [-> | ->]; simpl; now rewrite IH.
Qed.

Lemma keys_q_stops_d_is_inert_witness :
  main_loop reference_args initial
    [(Frame 0.1 true, KeyD); (Frame 0.2 true, NoKey)]
  = run reference_args initial [Frame 0.1 true; Frame 0.2 true].
Proof.
  apply (proj2 (keys_q_stops_d_is_inert reference_args initial)
           [(Frame 0.1 true, KeyD); (Frame 0.2 true, NoKey)]).
  constructor; [left; reflexivity|].
  constructor; [right; reflexivity | constructor].
Defined.

Lemma main_loop_latched a inputs : forall st,
  latched (ALARM_ON st) (map event (snd (main_loop a st inputs))) = true.
Proof.
  induction inputs as [|[f k] inputs IH]; intro st; simpl; [reflexivity|].
  pose proof (update_latch a st (combined_ear f) (face_detected f)) as Hstep.
  destruct (update a st (combined_ear f) (face_detected f)) as [st1 o].
  specialize (IH (handle_key k st1)). rewrite handle_key_alarm in IH.
  simpl in Hstep.
  assert (Hone : latched (ALARM_ON st) [event o] = true).
  { simpl. destruct (event o) as [[|]|]; try reflexivity.
    destruct Hstep as [-> _]. reflexivity. }
  assert (Hmore : forall os,
            latched (ALARM_ON st1) (map event os) = true ->
            latched (ALARM_ON st) (map event (o :: os)) = true).
  { intros os Hos. simpl. destruct (event o) as [[|]|].
    - destruct Hstep as [-> Hon]. now rewrite Hon in Hos.
    - destruct Hstep as [_ Hoff]. now rewrite Hoff in Hos.
    - now rewrite Hstep in Hos. }
  destruct k; try exact Hone;
    destruct (main_loop a _ inputs) as [st2 os]; now apply Hmore.
Qed.

(** The latch holds with key presses too, resets included: in the outputs
    of the main loop two [TurnedOn] are always separated by a
    [TurnedOff]; and when the loop starts with the alarm flag set (as a
    reset leaves it), no [TurnedOn] comes before a [TurnedOff]. *)
Theorem alarm_latch_with_keys a st inputs :
  let evs := map event (snd (main_loop a st inputs)) in
  (forall i j, (i < j)%nat ->
     nth_error evs i = Some (Some TurnedOn) ->
     nth_error evs j = Some (Some TurnedOn) ->
     exists k, (i < k < j)%nat /\ nth_error evs k = Some (Some TurnedOff)) /\
  (ALARM_ON st = true ->
   forall j, nth_error evs j = Some (Some TurnedOn) ->
     exists k, (k < j)%nat /\ nth_error evs k = Some (Some TurnedOff)).
Proof.
  cbv zeta. pose proof (main_loop_latched a inputs st) as L. split.
  - intros i j. now apply (latched_between _ (ALARM_ON st)).
  - intros Hon j. rewrite Hon in L. now apply latched_armed.
Qed.

Lemma alarm_latch_with_keys_witness :
  exists k, (0 < k < 3)%nat /\
    nth_error
      (map event
         (snd (main_loop quick_args initial
                 [ (Frame 0.1 true, KeyR); (Frame 0.9 true, NoKey);
                   (Frame 0.9 true, KeyR); (Frame 0.0 true, KeyD) ]))) k
    = Some (Some TurnedOff).
Proof.
  apply (proj1 (alarm_latch_with_keys quick_args initial
                  [ (Frame 0.1 true, KeyR); (Frame 0.9 true, NoKey);
                    (Frame 0.9 true, KeyR); (Frame 0.0 true, KeyD) ])
           0%nat 3%nat).
  - lia.
  - now vm_compute.
  - now vm_compute.
Defined.

(** ** The bounding-box estimator of [utils.py] *)

Lemma max_step_cases a b :
  (a < b /\ max_step a b = b) \/ (b <= a /\ max_step a b = a).
Proof.
  unfold max_step. destruct (Qltb a b) eqn:E.
  - left. split; [now apply Qltb_lt | reflexivity].
  - right. split; [now apply Qltb_ge | reflexivity].
Qed.

Lemma min_step_cases m item :
  (item < m /\ min_step m item = item) \/ (m <= item /\ min_step m item = m).
Proof.
  unfold min_step. destruct (Qltb item m) eqn:E.
  - left. split; [now apply Qltb_lt | reflexivity].
  - right. split; [now apply Qltb_ge | reflexivity].
Qed.

Lemma width_floor_positive w : 1 <= max_step w 1.
Proof. destruct (max_step_cases w 1) as [[H ->] | [H ->]]; lra. Qed.

Lemma calculate_eye_aspect_ratio_value eye1 eye2 :
  calculate_eye_aspect_ratio eye1 eye2 = Ret (clamp (raw_ratio eye1 eye2)).
Proof.
  unfold calculate_eye_aspect_ratio.
  rewrite !div_positive; [reflexivity | |];
    (apply Qlt_le_trans with 1; [reflexivity | apply width_floor_positive]).
Qed.

Lemma clamp_range v : 0.15 <= clamp v /\ clamp v <= 0.35.
Proof.
  unfold clamp.
  destruct (max_step_cases v 0.15) as [[H1 ->] | [H1 ->]];
    destruct (min_step_cases v 0.35) as [[H2 E2] | [H2 E2]];
    destruct (min_step_cases 0.15 0.35) as [[H3 E3] | [H3 E3]];
    try rewrite E2; try rewrite E3; lra.
Qed.

Lemma clamp_mono u v : u <= v -> clamp u <= clamp v.
Proof.
  intro Huv. unfold clamp.
  destruct (max_step_cases u 0.15) as [[A1 ->] | [A1 ->]];
    destruct (max_step_cases v 0.15) as [[B1 ->] | [B1 ->]];
    match goal with
    | |- min_step ?p _ <= min_step ?q _ =>
        destruct (min_step_cases p 0.35) as [[A2 EA] | [A2 EA]];
        destruct (min_step_cases q 0.35) as [[B2 EB] | [B2 EB]];
        rewrite EA; try rewrite EB
    end; lra.
Qed.

Lemma min_step_mono_item m u v : u <= v -> min_step m u <= min_step m v.
Proof.
  intro Huv.
  destruct (min_step_cases m u) as [[A ->] | [A ->]];
    destruct (min_step_cases m v) as [[B ->] | [B ->]]; lra.
Qed.

Lemma ratio_mono h h' w :
  h <= h' -> h / max_step w 1 <= h' / max_step w 1.
Proof.
  intro Hh. pose proof (width_floor_positive w) as Hw.
  assert (Hi : 0 < / max_step w 1) by (apply Qinv_lt_0_compat; lra).
  unfold Qdiv. nra.
Qed.

Lemma raw_ratio_mono eye1 eye2 eye1' eye2' :
  box_w eye1 = box_w eye1' -> box_w eye2 = box_w eye2' ->
  0 <= box_w eye1 -> 0 <= box_w eye2 ->
  box_h eye1 <= box_h eye1' -> box_h eye2 <= box_h eye2' ->
  raw_ratio eye1 eye2 <= raw_ratio eye1' eye2'.
Proof.
  intros W1 W2 P1 P2 H1 H2. unfold raw_ratio. rewrite <- W1, <- W2.
  pose proof (ratio_mono _ _ (box_w eye1) H1) as R1.
  pose proof (ratio_mono _ _ (box_w eye2) H2) as R2.
  assert (Harea : (box_w eye1 * box_h eye1 + box_w eye2 * box_h eye2) / 20000
                  <= (box_w eye1 * box_h eye1' + box_w eye2 * box_h eye2')
                     / 20000).
  { apply Qle_shift_div_l; [reflexivity|].
    unfold Qdiv. rewrite <- Qmult_assoc.
    setoid_replace (/ 20000 * 20000) with 1 by reflexivity. nra. }
  pose proof (min_step_mono_item 0.03 _ _ Harea) as S.
  set (r1 := box_h eye1 / max_step (box_w eye1) 1) in *.
  set (r1' := box_h eye1' / max_step (box_w eye1) 1) in *.
  set (r2 := box_h eye2 / max_step (box_w eye2) 1) in *.
  set (r2' := box_h eye2' / max_step (box_w eye2) 1) in *.
  set (s := min_step 0.03 _) in *.
  set (s' := min_step 0.03 _) in S |- *.
  clearbody r1 r1' r2 r2' s s'.
  unfold Qdiv. change (/ 2) with (1 # 2). lra.
Qed.

(** The bounding-box estimator never fails, not even on boxes of width
    zero or below: the width is replaced by 1 when it is smaller.  Its
    result always lies in [0.15, 0.35]; it is 0.15 whenever the value
    before clamping is below 0.15 (two boxes of height 0, for instance)
    and 0.35 whenever that value is above 0.35. *)
Theorem calculate_eye_aspect_ratio_clamped eye1 eye2 :
  (exists r, calculate_eye_aspect_ratio eye1 eye2 = Ret r /\
             0.15 <= r /\ r <= 0.35) /\
  (raw_ratio eye1 eye2 < 0.15 ->
   calculate_eye_aspect_ratio eye1 eye2 = Ret 0.15) /\
  (0.35 < raw_ratio eye1 eye2 ->
   calculate_eye_aspect_ratio eye1 eye2 = Ret 0.35) /\
  (box_h eye1 == 0 -> box_h eye2 == 0 ->
   calculate_eye_aspect_ratio eye1 eye2 = Ret 0.15).
Proof.
  rewrite calculate_eye_aspect_ratio_value.
  assert (Hlow : raw_ratio eye1 eye2 < 0.15 ->
                 Ret (clamp (raw_ratio eye1 eye2)) = Ret 0.15).
  { intro H. unfold clamp.
    destruct (max_step_cases (raw_ratio eye1 eye2) 0.15)
      as [[_ ->] | [H' _]]; [reflexivity | lra]. }
  split; [|split; [exact Hlow | split]].
  - eexists. split; [reflexivity | apply clamp_range].
  - intro H. unfold clamp.
    destruct (max_step_cases (raw_ratio eye1 eye2) 0.15)
      as [[H' _] | [_ ->]]; [lra|].
    destruct (min_step_cases (raw_ratio eye1 eye2) 0.35)
      as [[_ ->] | [H' _]]; [reflexivity | lra].
  - intros H1 H2. apply Hlow. unfold raw_ratio.
    assert (Hs : (box_w eye1 * box_h eye1 + box_w eye2 * box_h eye2) / 20000
                 == 0) by (rewrite H1, H2; unfold Qdiv; ring).
    destruct (min_step_cases 0.03
                ((box_w eye1 * box_h eye1 + box_w eye2 * box_h eye2) / 20000))
      as [[_ ->] | [H' _]]; [|rewrite Hs in H'; lra].
    rewrite Hs, H1, H2.
    setoid_replace
      (0.27 * ((0 / max_step (box_w eye1) 1 + 0 / max_step (box_w eye2) 1) / 2)
       + 0) with 0 by (unfold Qdiv; ring).
    reflexivity.
Qed.

Lemma calculate_eye_aspect_ratio_clamped_witness :
  calculate_eye_aspect_ratio (Box 10 20 30 0) (Box 60 20 0 0) = Ret 0.15 /\
  calculate_eye_aspect_ratio (Box 10 20 10 30) (Box 60 20 10 30) = Ret 0.35.
Proof.
  split.
  - apply (proj2 (proj2 (proj2 (calculate_eye_aspect_ratio_clamped
                                  (Box 10 20 30 0) (Box 60 20 0 0)))));
      reflexivity.
  - apply (proj1 (proj2 (proj2 (calculate_eye_aspect_ratio_clamped
                                  (Box 10 20 10 30) (Box 60 20 10 30))))).
    reflexivity.
Defined.

(** More open boxes never give a smaller ratio: with the widths kept (and
    not negative), raising the height of either box does not lower the
    result.  The positions of the boxes play no part, and the two eyes
    can be swapped. *)
Theorem calculate_eye_aspect_ratio_monotone eye1 eye2 eye1' eye2' :
  box_w eye1 = box_w eye1' -> box_w eye2 = box_w eye2' ->
  0 <= box_w eye1 -> 0 <= box_w eye2 ->
  box_h eye1 <= box_h eye1' -> box_h eye2 <= box_h eye2' ->
  exists r r' s,
    calculate_eye_aspect_ratio eye1 eye2 = Ret r /\
    calculate_eye_aspect_ratio eye1' eye2' = Ret r' /\
    calculate_eye_aspect_ratio eye2 eye1 = Ret s /\
    r <= r' /\ s == r.
Proof.
  intros W1 W2 P1 P2 H1 H2.
  exists (clamp (raw_ratio eye1 eye2)), (clamp (raw_ratio eye1' eye2')),
         (clamp (raw_ratio eye2 eye1)).
  rewrite !calculate_eye_aspect_ratio_value.
  split; [reflexivity|]. split; [reflexivity|]. split; [reflexivity|].
  split.
  - apply clamp_mono. now apply raw_ratio_mono.
  - assert (E : raw_ratio eye2 eye1 == raw_ratio eye1 eye2).
    { assert (Ea : (box_w eye2 * box_h eye2 + box_w eye1 * box_h eye1)
                   / 20000
                   == (box_w eye1 * box_h eye1 + box_w eye2 * box_h eye2)
                      / 20000) by (unfold Qdiv; ring).
      assert (Es : min_step 0.03
                     ((box_w eye2 * box_h eye2 + box_w eye1 * box_h eye1)
                      / 20000)
                   == min_step 0.03
                        ((box_w eye1 * box_h eye1 + box_w eye2 * box_h eye2)
                         / 20000)).
      { apply Qle_antisym; apply min_step_mono_item; rewrite Ea;
          apply Qle_refl. }
      unfold raw_ratio. rewrite Es. unfold Qdiv. ring. }
    apply Qle_antisym; apply clamp_mono; rewrite E; apply Qle_refl.
Qed.

Lemma calculate_eye_aspect_ratio_monotone_witness :
  exists r r' s,
    calculate_eye_aspect_ratio (Box 10 20 30 9) (Box 60 20 30 9) = Ret r /\
    calculate_eye_aspect_ratio (Box 0 0 30 12) (Box 5 5 30 9) = Ret r' /\
    calculate_eye_aspect_ratio (Box 60 20 30 9) (Box 10 20 30 9) = Ret s /\
    r <= r' /\ s == r.
Proof.
  apply (calculate_eye_aspect_ratio_monotone
           (Box 10 20 30 9) (Box 60 20 30 9)
           (Box 0 0 30 12) (Box 5 5 30 9));
    try reflexivity; simpl; discriminate.
Defined.

(** ** Looking away *)

Lemma scan_centers_cons fh fw e rest :
  scan_centers fh fw (eye_center e :: rest) = false <->
  centred fh fw e /\ scan_centers fh fw rest = false.
Proof.
  unfold centred, eye_center. simpl scan_centers. simpl fst. simpl snd.
  set (cx := box_x e + box_w e / 2). set (cy := box_y e + box_h e / 2).
  destruct (Qltb cx (fw * 0.2)) eqn:X1; simpl.
  { apply Qltb_lt in X1. split; [discriminate|].
    intros [[[H _] _] _]. exfalso. exact (Qlt_not_le _ _ X1 H). }
  destruct (Qltb (fw * 0.8) cx) eqn:X2; simpl.
  { apply Qltb_lt in X2. split; [discriminate|].
    intros [[[_ H] _] _]. exfalso. exact (Qlt_not_le _ _ X2 H). }
  destruct (Qltb cy (fh * 0.15)) eqn:Y1; simpl.
  { apply Qltb_lt in Y1. split; [discriminate|].
    intros [[_ [H _]] _]. exfalso. exact (Qlt_not_le _ _ Y1 H). }
  destruct (Qltb (fh * 0.6) cy) eqn:Y2; simpl.
  { apply Qltb_lt in Y2. split; [discriminate|].
    intros [[_ [_ H]] _]. exfalso. exact (Qlt_not_le _ _ Y2 H). }
  apply Qltb_ge in X1, X2, Y1, Y2. tauto.
Qed.

Lemma is_looking_away_two e1 e2 rest fh fw :
  is_looking_away (e1 :: e2 :: rest) fh fw = false <->
  centred fh fw e1 /\ centred fh fw e2.
Proof.
  unfold is_looking_away. simpl length. simpl firstn. simpl map.
  change (S (S (length rest)) <? 2)%nat with false. cbv iota.
  rewrite !scan_centers_cons. simpl scan_centers. tauto.
Qed.

(** [is_looking_away] answers False with fewer than two eyes; with two or
    more it looks at the first two only, in either order, and answers
    False exactly when the centres of both lie within 20% to 80% of the
    frame width and 15% to 60% of the frame height. *)
Theorem is_looking_away_first_two_centred fh fw :
  (forall eyes, (length eyes < 2)%nat ->
     is_looking_away eyes fh fw = false) /\
  (forall e1 e2 rest,
     (is_looking_away (e1 :: e2 :: rest) fh fw = false <->
      centred fh fw e1 /\ centred fh fw e2) /\
     is_looking_away (e1 :: e2 :: rest) fh fw
       = is_looking_away [e1; e2] fh fw /\
     is_looking_away (e2 :: e1 :: rest) fh fw
       = is_looking_away (e1 :: e2 :: rest) fh fw).
Proof.
  split.
  - intros eyes Hlen. unfold is_looking_away.
    apply Nat.ltb_lt in Hlen. now rewrite Hlen.
  - intros e1 e2 rest. split; [apply is_looking_away_two|].
    split; [reflexivity|].
    pose proof (is_looking_away_two e1 e2 rest fh fw) as A.
    pose proof (is_looking_away_two e2 e1 rest fh fw) as B.
    destruct (is_looking_away (e1 :: e2 :: rest) fh fw);
      destruct (is_looking_away (e2 :: e1 :: rest) fh fw);
      try reflexivity.
    + assert (C : false = false) by reflexivity.
      apply B in C. destruct A as [_ A]. discriminate A. tauto.
    + assert (C : false = false) by reflexivity.
      apply A in C. destruct B as [_ B]. discriminate B. tauto.
Qed.

Lemma is_looking_away_first_two_centred_witness :
  is_looking_away [Box 200 150 40 20] 480 640 = false /\
  is_looking_away [Box 200 150 40 20; Box 400 150 40 20; Box 0 0 1 1]
    480 640 = false.
Proof.
  destruct (is_looking_away_first_two_centred 480 640) as [H1 H2].
  split.
  - apply H1. simpl. lia.
  - apply (proj1 (H2 (Box 200 150 40 20) (Box 400 150 40 20) [Box 0 0 1 1])).
    unfold centred. simpl. repeat split; discriminate.
Defined.

(** ** The closure score *)

Lemma linspace_weights_in_range :
  Forall (fun w => 0.1 <= w /\ w <= 1) (linspace 1.0 0.1 256).
Proof.
  unfold linspace. apply Forall_forall. intros w Hw.
  apply in_map_iff in Hw as [i [<- Hi]]. apply in_seq in Hi.
  change (inject_Z (Z.of_nat (256 - 1))) with 255.
  assert (H0 : 0 <= inject_Z (Z.of_nat i)).
  { change 0 with (inject_Z 0). rewrite <- Zle_Qle. lia. }
  assert (H255 : inject_Z (Z.of_nat i) <= 255).
  { change 255 with (inject_Z 255). rewrite <- Zle_Qle. lia. }
  setoid_replace ((0.1 - 1.0) / 255) with (- (9 # 2550)) by reflexivity.
  split; lra.
Qed.

Lemma weighted_sum_bounds lo hi : forall cs ws,
  length cs = length ws ->
  Forall (fun c => 0 <= c) cs ->
  Forall (fun w => lo <= w /\ w <= hi) ws ->
  lo * Py.sum cs
    <= Py.sum (map (fun cw => fst cw * snd cw) (combine cs ws)) /\
  Py.sum (map (fun cw => fst cw * snd cw) (combine cs ws))
    <= hi * Py.sum cs.
Proof.
  induction cs as [|c cs IH]; intros ws Hlen Hcs Hws.
  - change (Py.sum []) with 0. simpl. change (Py.sum []) with 0. lra.
  - destruct ws as [|w ws]; [discriminate|].
    inversion Hcs as [|c' cs' Hc Hcs']; subst.
    inversion Hws as [|w' ws' Hw Hws']; subst.
    injection Hlen as Hlen.
    destruct (IH ws Hlen Hcs' Hws') as [IH1 IH2].
    simpl combine. simpl map. simpl fst. simpl snd.
    rewrite !sum_cons.
    set (s := Py.sum (map _ (combine cs ws))) in *.
    set (t := Py.sum cs) in *. clearbody s t.
    destruct Hw as [Hw1 Hw2]. split; nra.
Qed.

Lemma sum_normalised total hist :
  Py.sum (map (fun c => c / total) hist) == Py.sum hist / total.
Proof.
  induction hist as [|c hist IH].
  - change (Py.sum (map _ [])) with 0. change (Py.sum []) with 0.
    unfold Qdiv. ring.
  - simpl map. rewrite !sum_cons, IH. unfold Qdiv. ring.
Qed.

(** For a histogram of 256 counts, none negative and not all zero, the
    closure score is a weighted mean of the weights 1.0 down to 0.1: it
    lies between 0.1 and 1. *)
Theorem closure_score_between_weights hist :
  length hist = 256%nat ->
  Forall (fun c => 0 <= c) hist ->
  0 < Py.sum hist ->
  0.1 <= closure_score hist /\ closure_score hist <= 1.
Proof.
  intros Hlen Hpos Htotal. unfold closure_score.
  set (total := Py.sum hist) in *.
  assert (Hnorm : Forall (fun c => 0 <= c) (map (fun c => c / total) hist)).
  { apply Forall_map. revert Hpos. apply Forall_impl. intros c Hc.
    apply Qle_shift_div_l; [exact Htotal | lra]. }
  assert (Hone : Py.sum (map (fun c => c / total) hist) == 1).
  { rewrite sum_normalised. fold total. field. lra. }
  destruct (weighted_sum_bounds 0.1 1 (map (fun c => c / total) hist)
              (linspace 1.0 0.1 256)) as [B1 B2].
  - unfold linspace. now rewrite !length_map, length_seq.
  - exact Hnorm.
  - exact linspace_weights_in_range.
  - rewrite Hone in B1, B2. split; lra.
Qed.

Lemma closure_score_between_weights_witness :
  0.1 <= closure_score (3 :: repeat 0 254 ++ [1]) /\
  closure_score (3 :: repeat 0 254 ++ [1]) <= 1.
Proof.
  apply (closure_score_between_weights (3 :: repeat 0 254 ++ [1])).
  - reflexivity.
  - repeat (constructor; [discriminate|]). constructor.
  - reflexivity.
Defined.

(** ** The alarm calls *)

Lemma calls_cons c o outs :
  calls c (o :: outs)
    = (length (filter (is_call c) (actions o)) + calls c outs)%nat.
Proof.
  unfold calls. simpl. now rewrite filter_app, length_app.
Qed.

Lemma update_calls a st ear fd c :
  length (filter (is_call c) (actions (snd (update a st ear fd))))
    = if is_turned_on (snd (update a st ear fd))
      then length (filter (is_call c) (alarm_actions a))
      else 0%nat.
Proof.
  rewrite update_actions. unfold is_turned_on.
  now destruct (event (snd (update a st ear fd))) as [[|]|].
Qed.

(** [play_alarm] is called once for every [TurnedOn] and never
    otherwise, and not at all in silent mode; [log_drowsiness_event]
    likewise writes once for every [TurnedOn] when logging is enabled and
    never when it is not. *)
Theorem alarm_calls_follow_flags a st fs :
  calls PlayAlarm (snd (run a st fs))
    = (if args_silent a then 0 else turned_on_count (snd (run a st fs)))%nat /\
  calls LogDrowsinessEvent (snd (run a st fs))
    = (if args_log a then turned_on_count (snd (run a st fs)) else 0)%nat.
Proof.
  revert st. induction fs as [|f fs IH]; intro st.
  - simpl. unfold calls, turned_on_count. simpl.
    now destruct (args_silent a), (args_log a).
  - simpl.
    pose proof (update_calls a st (combined_ear f) (face_detected f)
                  PlayAlarm) as HP.
    pose proof (update_calls a st (combined_ear f) (face_detected f)
                  LogDrowsinessEvent) as HL.
    destruct (update a st (combined_ear f) (face_detected f)) as [st1 o].
    destruct (IH st1) as [IH1 IH2].
    destruct (run a st1 fs) as [st2 os]. simpl in *.
    rewrite !calls_cons, HP, HL, IH1, IH2.
    unfold turned_on_count. simpl filter.
    unfold alarm_actions.
    destruct (is_turned_on o), (args_silent a), (args_log a);
      simpl; split; reflexivity.
Qed.
